(** * certmon: monitoring of TLS certificate expiration dates

    A shallow embedding of [certmon.go] (package [main] of brawer/certmon):
    the prober [FindExpirationTime], the per-domain monitoring loop started
    by [NewCertMon], and the status page handler [HandleStatus].

    The Go standard library is outside the repository.  What the program
    uses of it is modelled below, each piece next to the code that calls it:
    [time.Time] values, the result of [tls.Dial], [sort.Slice] (through its
    contract), [sync.Mutex] and the Prometheus gauge (through the events the
    program emits on them). *)

From Stdlib Require Import ZArith String Ascii DecimalString DecimalPos.
From stdpp Require Import gmap strings list sorting.

Local Open Scope string_scope.
Local Open Scope Z_scope.

#[local] Set Warnings "-clear-no-such-hyp".

(** ** Results of Go functions

    A Go call either returns or panics; a run-time panic in a goroutine
    that nobody recovers terminates the process. *)

Inductive outcome (A : Type) : Type :=
  | Returned (a : A)
  | Panicked (msg : string).
Arguments Returned {A} a.
Arguments Panicked {A} msg.

(** Go's [error] interface: [None] is [nil]. *)
Inductive error : Type := Err (msg : string).

Definition index_out_of_range : string :=
  "runtime error: index out of range [0] with length 0".

(** ** time.Time

    The program only handles [time.Time{}] and the [NotAfter] fields of
    parsed X.509 certificates.  Both carry no monotonic clock reading and
    are in UTC (a nil location pointer), so a value is determined by its
    seconds since January 1 of year 1 ([ext]) and its nanoseconds within
    the second ([nsec]).  On such values Go's [==] on the struct is
    equality of both fields. *)

Module GoTime.

Record Time : Type := mkTime { ext : Z; nsec : Z }.

#[global] Instance Time_eq_dec : EqDecision Time.
Proof. solve_decision. Defined.

(** [time.Time{}] *)
Definition zero : Time := mkTime 0 0.

(** [t.Before(u)] *)
Definition Before (t u : Time) : bool :=
  (ext t <? ext u) || ((ext t =? ext u) && (nsec t <? nsec u)).

Definition wrap64 (x : Z) : Z := (x + 2 ^ 63) mod 2 ^ 64 - 2 ^ 63.

Definition unixToInternal : Z :=
  (1969 * 365 + 1969 / 4 - 1969 / 100 + 1969 / 400) * 86400.
Definition internalToUnix : Z := - unixToInternal.

(** [t.Unix()]: an int64 *)
Definition Unix (t : Time) : Z := wrap64 (ext t + internalToUnix).

(** [float64(x)] for an int64 [x]: the nearest float64, ties to even.
    The result is an integer, given here as its value. *)
Definition float64 (x : Z) : Z :=
  let a := Z.abs x in
  if a <? 2 ^ 53 then x
  else
    let e := Z.log2 a - 52 in
    let q := a / 2 ^ e in
    let r := a mod 2 ^ e in
    let half := 2 ^ (e - 1) in
    let q' := if (half <? r) || ((r =? half) && Z.odd q) then q + 1 else q in
    Z.sgn x * (q' * 2 ^ e).

(** *** Formatting with the layout [time.RFC3339] in UTC *)

Definition isLeap (year : Z) : bool :=
  (year mod 4 =? 0) && (negb (year mod 100 =? 0) || (year mod 400 =? 0)).

Definition daysBefore : list Z :=
  [0; 31; 59; 90; 120; 151; 181; 212; 243; 273; 304; 334; 365].

Definition daysBefore_at (i : Z) : Z := nth (Z.to_nat i) daysBefore 0.

(** Year and day within the year of a day number counted from
    January 1 of year 1; the 400-year cycles of the calendar start
    there. *)
Definition yearDay (days : Z) : Z * Z :=
  let n400 := days / 146097 in
  let d := days mod 146097 in
  let n100 := d / 36524 in
  let n100 := n100 - n100 / 4 in
  let d := d - 36524 * n100 in
  let n4 := d / 1461 in
  let d := d - 1461 * n4 in
  let n := d / 365 in
  let n := n - n / 4 in
  let d := d - 365 * n in
  (1 + 400 * n400 + 100 * n100 + 4 * n4 + n, d).

(** Month (January is 1) and day of the month. *)
Definition monthDay (year yday : Z) : Z * Z :=
  if isLeap year && (yday =? 31 + 29 - 1) then (2, 29)
  else
    let day := if isLeap year && (31 + 29 - 1 <? yday) then yday - 1 else yday in
    let month := day / 31 in
    let e := daysBefore_at (month + 1) in
    if e <=? day then (month + 2, day - e + 1)
    else (month + 1, day - daysBefore_at month + 1).

Definition digits (u : Z) : string :=
  NilZero.string_of_uint (N.to_uint (Z.to_N u)).

Fixpoint zeros (n : nat) : string :=
  match n with
  | O => ""
  | S n' => "0" +:+ zeros n'
  end.

(** [appendInt]: sign, then the digits padded with zeros to [width]. *)
Definition appendInt (x : Z) (width : nat) : string :=
  let ds := digits (Z.abs x) in
  (if x <? 0 then "-" else "") +:+ zeros (width - String.length ds) +:+ ds.

(** [t.Format(time.RFC3339)] for a time in UTC. *)
Definition Format_RFC3339 (t : Time) : string :=
  let days := ext t / 86400 in
  let secs := ext t mod 86400 in
  let '(year, yday) := yearDay days in
  let '(month, day) := monthDay year yday in
  appendInt year 4 +:+ "-" +:+ appendInt month 2 +:+ "-" +:+ appendInt day 2
    +:+ "T" +:+ appendInt (secs / 3600) 2 +:+ ":" +:+ appendInt (secs mod 3600 / 60) 2
    +:+ ":" +:+ appendInt (secs mod 60) 2 +:+ "Z".

(** The time [u] seconds after 1970-01-01T00:00:00Z. *)
Definition ofUnix (u : Z) : Time := mkTime (u + unixToInternal) 0.

End GoTime.
Export GoTime.


#[global] Instance Time_inhabited : Inhabited Time := populate zero.

(** ** crypto/tls, as far as the prober sees it

    [tls.Dial] either fails or yields a connection whose handshake is
    complete.  A connection answers [VerifyHostname] and carries the
    certificates the peer presented. *)

Record Certificate : Type := mkCertificate { NotAfter : Time }.

Record Conn : Type := mkConn {
  VerifyHostname : string → option error;
  PeerCertificates : list Certificate
}.

(** The network at the moment of a probe: the result of
    [tls.Dial(network, addr, nil)]. *)
Definition Network : Type := string → string → Conn + error.



(** ** The prober *)

(** The loop of [FindExpirationTime] over [PeerCertificates[1:]]
    (lines 77 to 81). *)
Definition earliest (exp : Time) (certs : list Certificate) : Time :=
  fold_left
    (λ exp cert, if Before (NotAfter cert) exp then NotAfter cert else exp)
    certs exp.

(** [FindExpirationTime] (lines 66 to 84).  Indexing an empty slice at 0
    panics. *)
Definition FindExpirationTime (net : Network) (host : string)
    : outcome (Time * option error) :=
  match net "tcp" (host +:+ ":443") with
  | inr err => Returned (zero, Some err)
  | inl conn =>
      match VerifyHostname conn host with
      | Some err => Returned (zero, Some err)
      | None =>
          match PeerCertificates conn with
          | [] => Panicked index_out_of_range
          | cert0 :: rest => Returned (earliest (NotAfter cert0) rest, None)
          end
      end
  end.

(** ** Shared state and effects

    [expirations] is [cm.expirations]; [certExpirations] holds the value
    of the gauge of each label; [events] records, in program order, the
    operations on [cm.mutex], on the gauge, the stores to the map and the
    writes to the HTTP response. *)

Inductive event : Type :=
  | EvLock
  | EvUnlock
  | EvGaugeSet (dom : string) (v : Z)
  | EvStore (dom : string) (t : Time)
  | EvFprintf (s : string).

#[global] Instance event_eq_dec : EqDecision event.
Proof. solve_decision. Defined.

Record World : Type := mkWorld {
  expirations : gmap string Time;
  certExpirations : gmap string Z;
  events : list event
}.

Definition M (A : Type) : Type := World → outcome (A * World).

#[global] Instance M_ret : MRet M := λ A a w, Returned (a, w).
#[global] Instance M_bind : MBind M := λ A B f c w,
  match c w with
  | Returned (a, w') => f a w'
  | Panicked msg => Panicked msg
  end.

Definition call {A} (r : outcome A) : M A := λ w,
  match r with
  | Returned a => Returned (a, w)
  | Panicked msg => Panicked msg
  end.

Definition emit (e : event) : M unit := λ w,
  Returned (tt, mkWorld (expirations w) (certExpirations w) (events w ++ [e])).

Definition mutex_Lock : M unit := emit EvLock.
Definition mutex_Unlock : M unit := emit EvUnlock.
Definition Fprintf (s : string) : M unit := emit (EvFprintf s).

(** [certExpirations.WithLabelValues(dom).Set(v)] *)
Definition gauge_Set (dom : string) (v : Z) : M unit := λ w,
  Returned (tt, mkWorld (expirations w) (<[dom := v]> (certExpirations w))
                        (events w ++ [EvGaugeSet dom v])).

(** [cm.expirations[dom] = t] *)
Definition map_store (dom : string) (t : Time) : M unit := λ w,
  Returned (tt, mkWorld (<[dom := t]> (expirations w)) (certExpirations w)
                        (events w ++ [EvStore dom t])).

(** [cm.expirations[dom]]: the zero value when the key is missing. *)
Definition map_load (dom : string) : M Time := λ w,
  Returned (expirations w !!! dom, w).

Definition get_expirations : M (gmap string Time) := λ w,
  Returned (expirations w, w).

Fixpoint for_range {A} (l : list A) (body : A → M unit) : M unit :=
  match l with
  | [] => mret tt
  | x :: l' => body x ;; for_range l' body
  end.

(** ** The monitor

    One pass through the [case <-ticker.C] branch of the goroutine
    started for [dom]: lines 53 to 57.  The ticker and the jitter sleep
    only delay the pass. *)
Definition monitor_cycle (net : Network) (dom : string) : M unit :=
  '(exp, _) ← call (FindExpirationTime net dom);
  gauge_Set dom (float64 (Unix exp)) ;;
  mutex_Lock ;;
  map_store dom exp ;;
  mutex_Unlock.

(** What reaches a goroutine's [select]: the context is cancelled, or
    the ticker fires (the network being what it is at that moment). *)
Inductive signal : Type :=
  | CtxDone
  | Tick (net : Network).

(** The goroutine [func(dom string)] over the signals it receives. *)
Fixpoint monitor (dom : string) (sigs : list signal) : M unit :=
  match sigs with
  | [] => mret tt
  | CtxDone :: _ => mret tt
  | Tick net :: sigs' => monitor_cycle net dom ;; monitor dom sigs'
  end.

(** One iteration of the loop of [NewCertMon] over [domains]: the
    entry of the domain is set to the zero time and a goroutine is
    started with the domain as its argument. *)
Definition NewCertMon_iteration (st : gmap string Time * list string) (domain : string)
    : gmap string Time * list string :=
  (<[domain := zero]> st.1, (st.2 ++ [domain])%list).

(** [NewCertMon]: the map it builds and, in the order of their start,
    the [dom] argument of each goroutine it starts. *)
Definition NewCertMon (domains : list string) : gmap string Time * list string :=
  fold_left NewCertMon_iteration domains (∅, []).

Definition initial (domains : list string) : World :=
  mkWorld (NewCertMon domains).1 ∅ [].

(** ** The status page *)

(** The comparison function handed to [sort.Slice], on the domains at
    the two indices.  Go compares strings byte by byte, as [String.ltb]
    does. *)
Definition less (exps : gmap string Time) (dom_i dom_j : string) : bool :=
  let exp_i := exps !!! dom_i in
  let exp_j := exps !!! dom_j in
  if bool_decide (exp_i ≠ exp_j) then Before exp_i exp_j
  else String.ltb dom_i dom_j.

(** [sort.Slice] is taken through its contract.  Given a comparison
    that is a strict weak ordering, it permutes the slice so that no
    element is less than its predecessor; which of several such
    permutations it produces is not specified (the sort is not stable). *)
Definition Sorter : Type := (string → string → bool) → list string → list string.

Record StrictWeakOrder (lt : string → string → bool) : Prop := {
  swo_irrefl : ∀ a, lt a a = false;
  swo_trans : ∀ a b c, lt a b = true → lt b c = true → lt a c = true;
  swo_incomparable : ∀ a b c,
    lt a b = false → lt b a = false → lt b c = false → lt c b = false →
    lt a c = false ∧ lt c a = false
}.

Definition not_before (lt : string → string → bool) : relation string :=
  λ a b, lt b a = false.

#[global] Instance not_before_dec lt : RelDecision (not_before lt).
Proof. intros a b. unfold not_before. apply _. Defined.

Definition sort_Slice_contract (sort_Slice : Sorter) : Prop :=
  ∀ lt l, StrictWeakOrder lt →
    sort_Slice lt l ≡ₚ l ∧ Sorted (not_before lt) (sort_Slice lt l).

(** Insertion sort, which is what Go's [sort] package runs on a short
    slice: each element moves towards the front while it is less than
    its predecessor.  The prefix sorted so far is kept reversed. *)
Fixpoint insert_back (lt : string → string → bool) (x : string) (rprefix : list string)
    : list string :=
  match rprefix with
  | [] => [x]
  | y :: rprefix' =>
      if lt x y then y :: insert_back lt x rprefix' else x :: y :: rprefix'
  end.

Definition insertionSort : Sorter := λ lt l,
  reverse (fold_left (λ rprefix x, insert_back lt x rprefix) l []).

(** The order in which [range cm.expirations] yields the keys is not
    specified: any enumeration of the keys, each once. *)
Definition range_order (exps : gmap string Time) (order : list string) : Prop :=
  order ≡ₚ (map_to_list exps).*1.

#[global] Instance range_order_dec exps order : Decision (range_order exps order).
Proof. unfold range_order. apply _. Defined.

Definition dquote : string := String "034"%char EmptyString.
Definition newline : string := String "010"%char EmptyString.

Definition unlines (lines : list string) : string :=
  foldr (λ line rest, line +:+ newline +:+ rest) "" lines.

Definition page_header : string :=
  unlines [
    "<html>";
    "<head>";
    "<link href='https://tools-static.wmflabs.org/fontcdn/css?family=Roboto+Slab:400,700' rel='stylesheet' type='text/css'/>";
    "<style>";
    "* {";
    "  font-family: 'Roboto Slab', serif;";
    "}";
    "h1 {";
    "  color: #0066ff;";
    "  margin-left: 1em;";
    "  margin-top: 1em;";
    "}";
    "p {";
    "  margin-left: 5em;";
    "}";
    "th {";
    "  text-align: left;";
    "}";
    "</style>";
    "</head>";
    "<body><h1>CertMon: Monitoring TLS Certificates</h1>";
    "<p>Every 30 seconds, this job checks the expiration dates of TLS certificates.";
    "It exposes these dates as <a href=" +:+ dquote +:+ "/metrics" +:+ dquote
      +:+ ">metrics</a> for monitoring with <a href=" +:+ dquote
      +:+ "https://prometheus.io/" +:+ dquote +:+ ">Prometheus</a>.</p>";
    "";
    "<p>Source code: <a href=" +:+ dquote +:+ "https://github.com/brawer/certmon"
      +:+ dquote +:+ ">https://github.com/brawer/certmon</a></p>";
    "";
    "<p><table>";
    "<tr><th>Domain</th><th>Certificate expires</th></tr>"
  ].

Definition page_footer : string := "</table></p></body></html>" +:+ newline.

(** The table row of one domain. *)
Definition page_row (domain : string) (exp : Time) : string :=
  "<tr><td>" +:+ domain +:+ "</td><td>" +:+ Format_RFC3339 exp
    +:+ "</td></tr>" +:+ newline.

(** [HandleStatus] (lines 87 to 144), with the enumeration [order] that
    [range] yields.  The deferred [Unlock] runs when the function
    returns. *)
Definition HandleStatus (sort_Slice : Sorter) (order : list string) : M unit :=
  mutex_Lock ;;
  exps ← get_expirations;
  let domains := sort_Slice (less exps) order in
  Fprintf page_header ;;
  for_range domains (λ domain,
    exp ← map_load domain;
    Fprintf (page_row domain exp)) ;;
  Fprintf page_footer ;;
  mutex_Unlock.

(** What a sequence of events wrote to the response. *)
Fixpoint written (tr : list event) : string :=
  match tr with
  | [] => ""
  | EvFprintf s :: tr' => s +:+ written tr'
  | _ :: tr' => written tr'
  end.

(** The keys stored to by a sequence of events. *)
Fixpoint stored (tr : list event) : list string :=
  match tr with
  | [] => []
  | EvStore dom _ :: tr' => dom :: stored tr'
  | _ :: tr' => stored tr'
  end.

(** Does every write to the response in [tr] happen while the mutex is
    free ([free_wanted = true]) or while it is held ([false])?  [held]
    is the state of the mutex before [tr]. *)
Fixpoint writes_when (free_wanted : bool) (held : bool) (tr : list event) : bool :=
  match tr with
  | [] => true
  | EvLock :: tr' => writes_when free_wanted true tr'
  | EvUnlock :: tr' => writes_when free_wanted false tr'
  | EvFprintf _ :: tr' => xorb free_wanted held && writes_when free_wanted held tr'
  | _ :: tr' => writes_when free_wanted held tr'
  end.

(** Is [needle] a substring of [hay]? *)
Fixpoint contains (needle hay : string) : bool :=
  String.prefix needle hay ||
  match hay with
  | EmptyString => false
  | String _ hay' => contains needle hay'
  end.

(** ** The running system

    After [NewCertMon], the goroutines and the HTTP handler interleave.
    A step is a whole pass of one monitor or a whole run of the handler:
    the mutex makes the store of a pass and a run of the handler atomic
    with respect to each other, and a pass touches no gauge but that of
    its own domain. *)
Inductive step (goroutines : list string) : World → World → Prop :=
  | step_monitor (i : nat) dom net w w' :
      goroutines !! i = Some dom →
      monitor_cycle net dom w = Returned (tt, w') →
      step goroutines w w'
  | step_status sort_Slice order w w' :
      range_order (expirations w) order →
      HandleStatus sort_Slice order w = Returned (tt, w') →
      step goroutines w w'.

Definition reachable (domains : list string) (w : World) : Prop :=
  rtc (step (NewCertMon domains).2) (initial domains) w.

(** The goroutines that store to [key]: their positions in the order of
    their start, counted from [i]. *)
Fixpoint writers_from (i : nat) (goroutines : list string) (key : string) : list nat :=
  match goroutines with
  | [] => []
  | dom :: goroutines' =>
      if decide (dom = key) then i :: writers_from (S i) goroutines' key
      else writers_from (S i) goroutines' key
  end.

Definition writers (goroutines : list string) (key : string) : list nat :=
  writers_from 0 goroutines key.

(** ** Notions used to state the properties *)

(** The events of one run of the handler that renders [domains]. *)
Definition status_events (exps : gmap string Time) (domains : list string)
    : list event :=
  EvLock :: EvFprintf page_header
    :: (map (λ domain, EvFprintf (page_row domain (exps !!! domain))) domains
        ++ [EvFprintf page_footer; EvUnlock])%list.

(** [a] comes before [b] on the page: it expires earlier, or at the same
    time with the smaller name. *)
Definition ordered (exps : gmap string Time) (a b : string) : Prop :=
  Before (exps !!! a) (exps !!! b) = true
  ∨ (exps !!! a = exps !!! b ∧ String.ltb a b = true).

(** What was written to the response between two states of the world. *)
Definition response (before after : World) : string :=
  written (drop (length (events before)) (events after)).

(** The keys stored to between two states of the world. *)
Definition stored_between (before after : World) : list string :=
  stored (drop (length (events before)) (events after)).

(** The networks of the ticks a goroutine acts on: those it receives
    before the context is cancelled. *)
Fixpoint live_ticks (sigs : list signal) : list Network :=
  match sigs with
  | [] => []
  | CtxDone :: _ => []
  | Tick net :: sigs' => net :: live_ticks sigs'
  end.

(** The use of [cm.mutex] along a sequence of events, from the state
    [held]: the state of the mutex at the end, or [None] when the mutex
    is locked while held, unlocked while free, or the map is stored to
    while the mutex is free. *)
Fixpoint mutex_discipline (held : bool) (tr : list event) : option bool :=
  match tr with
  | [] => Some held
  | EvLock :: tr' => if held then None else mutex_discipline true tr'
  | EvUnlock :: tr' => if held then mutex_discipline false tr' else None
  | EvStore _ _ :: tr' => if held then mutex_discipline held tr' else None
  | _ :: tr' => mutex_discipline held tr'
  end.

(** The text of the rows of [domains], followed by [rest]. *)
Definition page_rows (exps : gmap string Time) (domains : list string) (rest : string)
    : string :=
  foldr (λ domain text, page_row domain (exps !!! domain) +:+ text) rest domains.

(** ** Start-up: [main] (the second source file)

    [int] has 64 bits. *)

(** [strings.Split(s, sep)] for a separator of one byte, as [main] calls
    it on the value of the flag [-hosts] with a comma. *)
Fixpoint strings_Split (s : string) (sep : ascii) : list string :=
  match s with
  | EmptyString => [""]
  | String c s' =>
      if Ascii.eqb c sep then "" :: strings_Split s' sep
      else
        match strings_Split s' sep with
        | field :: fields => String c field :: fields
        | [] => [String c ""]
        end
  end.

(** [strings.Join(elems, sep)], the inverse direction. *)
Fixpoint strings_Join (elems : list string) (sep : ascii) : string :=
  match elems with
  | [] => ""
  | elem :: elems' =>
      match elems' with
      | [] => elem
      | _ => elem +:+ String sep (strings_Join elems' sep)
      end
  end.

(** The number of bytes of [s] equal to [c]. *)
Fixpoint count_byte (c : ascii) (s : string) : nat :=
  match s with
  | EmptyString => O
  | String c' s' => (if Ascii.eqb c' c then 1 else 0) + count_byte c s'
  end.

(** The result of scanning an unsigned decimal number. *)
Inductive scanned : Type :=
  | Value (n : Z)
  | SyntaxError
  | RangeError.

Definition maxUint64 : Z := 2 ^ 64 - 1.

Definition digit_of (c : ascii) : option Z :=
  let b := Z.of_N (N_of_ascii c) in
  if (48 <=? b) && (b <=? 57) then Some (b - 48) else None.

(** The loop of [strconv.ParseUint(s, 10, 64)] from the value [n]. *)
Fixpoint ParseUint_from (s : string) (n : Z) : scanned :=
  match s with
  | EmptyString => Value n
  | String c s' =>
      match digit_of c with
      | None => SyntaxError
      | Some d =>
          if maxUint64 / 10 + 1 <=? n then RangeError
          else
            let n1 := n * 10 + d in
            if maxUint64 <? n1 then RangeError else ParseUint_from s' n1
      end
  end.

Definition ParseUint (s : string) : scanned :=
  match s with
  | EmptyString => SyntaxError
  | _ => ParseUint_from s 0
  end.

(** [strconv.Atoi(s)]: an optional sign and decimal digits.  On a syntax
    error the value is 0; out of range it is the nearest int. *)
Definition Atoi (s : string) : Z * option error :=
  match s with
  | EmptyString => (0, Some (Err "strconv.Atoi: invalid syntax"))
  | String c s' =>
      let neg := Ascii.eqb c "-" in
      let digits := if neg || Ascii.eqb c "+" then s' else s in
      match ParseUint digits with
      | SyntaxError => (0, Some (Err "strconv.Atoi: invalid syntax"))
      | RangeError =>
          (if neg then - 2 ^ 63 else 2 ^ 63 - 1,
           Some (Err "strconv.Atoi: value out of range"))
      | Value un =>
          if negb neg && (2 ^ 63 <=? un) then
            (2 ^ 63 - 1, Some (Err "strconv.Atoi: value out of range"))
          else if neg && (2 ^ 63 <? un) then
            (- 2 ^ 63, Some (Err "strconv.Atoi: value out of range"))
          else (if neg then - un else un, None)
      end
  end.

(** [strconv.Itoa(i)] *)
Definition Itoa (i : Z) : string := NilZero.string_of_int (Z.to_int i).

(** The value of a decimal number read from the accumulated value [n]. *)
Fixpoint uint_val (d : Decimal.uint) (n : Z) : Z :=
  match d with
  | Decimal.Nil => n
  | Decimal.D0 d' => uint_val d' (n * 10 + 0)
  | Decimal.D1 d' => uint_val d' (n * 10 + 1)
  | Decimal.D2 d' => uint_val d' (n * 10 + 2)
  | Decimal.D3 d' => uint_val d' (n * 10 + 3)
  | Decimal.D4 d' => uint_val d' (n * 10 + 4)
  | Decimal.D5 d' => uint_val d' (n * 10 + 5)
  | Decimal.D6 d' => uint_val d' (n * 10 + 6)
  | Decimal.D7 d' => uint_val d' (n * 10 + 7)
  | Decimal.D8 d' => uint_val d' (n * 10 + 8)
  | Decimal.D9 d' => uint_val d' (n * 10 + 9)
  end.

Inductive handler : Type :=
  | certmon_HandleStatus
  | promhttp_Handler.

(** What [main] has set up when it calls [http.ListenAndServe]. *)
Record Server : Type := mkServer {
  server_world : World;
  server_goroutines : list string;
  server_routes : list (string * handler);
  server_addr : string
}.

(** The default of the flag [-hosts]. *)
Definition default_hosts : string :=
  "codesearch.wmcloud.org,query.wikidata.org,toolforge.org,wmcloud.org".

(** [main], from the values of the flags [-port] and [-hosts] after
    [flag.Parse] (0 and [default_hosts] when not given) and from the
    environment. *)
Definition main (portFlag : Z) (domainsFlag : string) (Getenv : string → string)
    : Server :=
  let port := portFlag in
  let port := if port =? 0 then (Atoi (Getenv "PORT")).1 else port in
  let domains := strings_Split domainsFlag "," in
  let certmon := NewCertMon domains in
  mkServer (mkWorld certmon.1 ∅ []) certmon.2
           [("/", certmon_HandleStatus); ("/metrics", promhttp_Handler)]
           (":" +:+ Itoa port).

(** ** Scenarios used below *)

(** A network on which every connection attempt fails. *)
Definition net_unreachable : Network :=
  λ _ _, inr (Err "dial tcp: connect: connection refused").

(** A network on which the handshake succeeds, the host name is accepted
    and the peer presents [certs]. *)
Definition net_chain (certs : list Certificate) : Network :=
  λ _ _, inl (mkConn (λ _, None) certs).

(** A network on which the handshake succeeds but the certificate is
    not valid for the host name. *)
Definition net_wrong_host (certs : list Certificate) : Network :=
  λ _ _, inl (mkConn (λ _, Some (Err "x509: certificate is valid for another host")) certs).

(** A network on which the peer presents no certificate: no chain is
    verified, and [VerifyHostname] says so. *)
Definition net_no_certificates : Network :=
  λ _ _, inl (mkConn (λ _, Some (Err "tls: handshake did not verify certificate chain")) []).

Definition t2025 : Time := ofUnix 1748736000.
Definition t2030 : Time := ofUnix 1893456000.

(** A leaf valid until 2030 under an intermediate valid until 2025. *)
Definition chain_2030_2025 : list Certificate :=
  [mkCertificate t2030; mkCertificate t2025].

(** The table of the example: b.example until 2030, a.example until
    2025, c.example not probed yet. *)
Definition example_exps : gmap string Time :=
  <["b.example" := t2030]> (<["a.example" := t2025]> (<["c.example" := zero]> ∅)).

Definition example_world : World := mkWorld example_exps ∅ [].

Definition example_order : list string := ["b.example"; "a.example"; "c.example"].

(** A table in which example.org was seen to expire in 2030. *)
Definition probed_world : World :=
  mkWorld {["example.org" := t2030]} ∅ [].

(** Another order in which [range] may yield the keys of the example. *)
Definition example_order' : list string := ["c.example"; "b.example"; "a.example"].

(** The rendering of a time that is the zero time. *)
Definition zero_row (domain : string) : string :=
  "<tr><td>" +:+ domain +:+ "</td><td>0001-01-01T00:00:00Z</td></tr>" +:+ newline.

(** A configuration that names a domain twice, as the flag
    [-hosts=example.org,example.org] gives. *)
Definition repeated_domains : list string := ["example.org"; "example.org"].

Definition distinct_domains : list string := ["a.example"; "b.example"].

(** Three ticks, the context cancelled after the second. *)
Definition example_signals : list signal :=
  [Tick net_unreachable; Tick (net_chain chain_2030_2025); CtxDone;
   Tick net_unreachable].

(** The same chain, presented in the other order. *)
Definition chain_2025_2030 : list Certificate :=
  [mkCertificate t2025; mkCertificate t2030].

(** An environment in which only PORT is set. *)
Definition env_PORT (value : string) : string → string :=
  λ name, if String.eqb name "PORT" then value else "".

(** The system configured with [distinct_domains] after one pass of the
    monitor of a.example that found a certificate valid until 2025. *)
Definition after_one_pass : World :=
  mkWorld (<["a.example" := t2025]> (expirations (initial distinct_domains)))
          (<["a.example" := float64 (Unix t2025)]> ∅)
          [EvGaugeSet "a.example" (float64 (Unix t2025)); EvLock;
           EvStore "a.example" t2025; EvUnlock].

(** * Properties *)

(** ** The model of the library agrees with Go on known values *)

Example Format_zero : Format_RFC3339 zero = "0001-01-01T00:00:00Z".
Proof. vm_compute. reflexivity. Qed.
Example Format_2030 : Format_RFC3339 t2030 = "2030-01-01T00:00:00Z".
Proof. vm_compute. reflexivity. Qed.
Example Format_2025 : Format_RFC3339 t2025 = "2025-06-01T00:00:00Z".
Proof. vm_compute. reflexivity. Qed.
Example Format_leap : Format_RFC3339 (ofUnix 1709251199) = "2024-02-29T23:59:59Z".
Proof. vm_compute. reflexivity. Qed.
Example Format_eoy : Format_RFC3339 (ofUnix 1735689599) = "2024-12-31T23:59:59Z".
Proof. vm_compute. reflexivity. Qed.
Example Format_epoch : Format_RFC3339 (ofUnix 0) = "1970-01-01T00:00:00Z".
Proof. vm_compute. reflexivity. Qed.
Example Format_1999 : Format_RFC3339 (ofUnix 946684799) = "1999-12-31T23:59:59Z".
Proof. vm_compute. reflexivity. Qed.
Example Format_2100 : Format_RFC3339 (ofUnix 4107542400) = "2100-03-01T00:00:00Z".
Proof. vm_compute. reflexivity. Qed.
Example Unix_zero : Unix zero = -62135596800.
Proof. vm_compute. reflexivity. Qed.
Example float64_exact : float64 (Unix (ofUnix 1893456000)) = 1893456000.
Proof. vm_compute. reflexivity. Qed.
Example float64_rounds : float64 (2 ^ 53 + 1) = 2 ^ 53.
Proof. vm_compute. reflexivity. Qed.

(** ** Order on times and on strings *)

Lemma Before_spec t u :
  Before t u = true ↔ ext t < ext u ∨ (ext t = ext u ∧ nsec t < nsec u).
Proof.
  unfold Before.
  rewrite orb_true_iff, andb_true_iff, !Z.ltb_lt, Z.eqb_eq. tauto.
Qed.

Lemma Before_false t u :
  Before t u = false ↔ ext u < ext t ∨ (ext u = ext t ∧ nsec u ≤ nsec t).
Proof.
  rewrite <- not_true_iff_false, Before_spec. lia.
Qed.

Lemma Time_eq t u : t = u ↔ ext t = ext u ∧ nsec t = nsec u.
Proof.
  split; [intros ->; done|].
  destruct t, u; simpl; intros [-> ->]; done.
Qed.

Lemma Before_irrefl t : Before t t = false.
Proof. apply Before_false. lia. Qed.

Lemma Before_trans t u v :
  Before t u = true → Before u v = true → Before t v = true.
Proof. rewrite !Before_spec. lia. Qed.

Lemma Before_asym t u : Before t u = true → Before u t = false.
Proof. rewrite Before_spec, Before_false. lia. Qed.

Lemma Before_total t u : t ≠ u → Before t u = true ∨ Before u t = true.
Proof.
  rewrite Time_eq, !Before_spec. lia.
Qed.

Lemma not_Before_trans t u v :
  Before u t = false → Before v u = false → Before v t = false.
Proof. rewrite !Before_false. lia. Qed.

Lemma ascii_compare_refl c : Ascii.compare c c = Eq.
Proof. unfold Ascii.compare. apply N.compare_refl. Qed.

Lemma ascii_compare_lt_trans a b c :
  Ascii.compare a b = Lt → Ascii.compare b c = Lt → Ascii.compare a c = Lt.
Proof.
  unfold Ascii.compare. rewrite !N.compare_lt_iff. lia.
Qed.

Lemma string_compare_refl s : String.compare s s = Eq.
Proof.
  induction s as [|c s IH]; simpl; [done|].
  by rewrite ascii_compare_refl.
Qed.

Lemma string_compare_lt_trans s1 : ∀ s2 s3,
  String.compare s1 s2 = Lt → String.compare s2 s3 = Lt →
  String.compare s1 s3 = Lt.
Proof.
  induction s1 as [|c1 s1 IH]; intros [|c2 s2] [|c3 s3]; simpl; try done.
  destruct (Ascii.compare c1 c2) eqn:H12; try done.
  - apply Ascii.compare_eq_iff in H12 as ->.
    destruct (Ascii.compare c2 c3); try done. apply IH.
  - intros _. destruct (Ascii.compare c2 c3) eqn:H23; try done.
    + apply Ascii.compare_eq_iff in H23 as <-. by rewrite H12.
    + by rewrite (ascii_compare_lt_trans _ _ _ H12 H23).
Qed.

Lemma ltb_spec s1 s2 : String.ltb s1 s2 = true ↔ String.compare s1 s2 = Lt.
Proof. unfold String.ltb. destruct (String.compare s1 s2); split; done. Qed.

Lemma ltb_irrefl s : String.ltb s s = false.
Proof. unfold String.ltb. by rewrite string_compare_refl. Qed.

Lemma ltb_trans s1 s2 s3 :
  String.ltb s1 s2 = true → String.ltb s2 s3 = true → String.ltb s1 s3 = true.
Proof. rewrite !ltb_spec. apply string_compare_lt_trans. Qed.

Lemma ltb_asym s1 s2 : String.ltb s1 s2 = true → String.ltb s2 s1 = false.
Proof.
  rewrite ltb_spec. unfold String.ltb. rewrite (String.compare_antisym s1 s2).
  destruct (String.compare s2 s1); simpl; done.
Qed.

Lemma ltb_total s1 s2 :
  s1 ≠ s2 → String.ltb s1 s2 = true ∨ String.ltb s2 s1 = true.
Proof.
  intros Hne. unfold String.ltb. rewrite (String.compare_antisym s2 s1).
  destruct (String.compare s1 s2) eqn:Hc; simpl; auto.
  by apply String.compare_eq_iff in Hc.
Qed.

(** ** The comparison of the status page is a strict total order *)

Section less_order.
Variable exps : gmap string Time.

Lemma less_differ a b :
  exps !!! a ≠ exps !!! b → less exps a b = Before (exps !!! a) (exps !!! b).
Proof. intros H. unfold less. by rewrite bool_decide_eq_true_2. Qed.

Lemma less_tie a b :
  exps !!! a = exps !!! b → less exps a b = String.ltb a b.
Proof.
  intros H. unfold less. rewrite bool_decide_eq_false_2; [done|]. by intros [].
Qed.

Lemma less_irrefl a : less exps a a = false.
Proof. rewrite less_tie by done. apply ltb_irrefl. Qed.

Lemma less_asym a b : less exps a b = true → less exps b a = false.
Proof.
  destruct (decide (exps !!! a = exps !!! b)) as [E|N].
  - rewrite !less_tie by done. apply ltb_asym.
  - rewrite !less_differ by done. apply Before_asym.
Qed.

Lemma less_total a b : a ≠ b → less exps a b = true ∨ less exps b a = true.
Proof.
  intros Hne. destruct (decide (exps !!! a = exps !!! b)) as [E|N].
  - rewrite !less_tie by done. by apply ltb_total.
  - rewrite !less_differ by done. by apply Before_total.
Qed.

Lemma less_trans a b c :
  less exps a b = true → less exps b c = true → less exps a c = true.
Proof.
  destruct (decide (exps !!! a = exps !!! b)) as [Eab|Nab];
    destruct (decide (exps !!! b = exps !!! c)) as [Ebc|Nbc].
  - rewrite !less_tie by congruence. apply ltb_trans.
  - rewrite (less_tie a b), (less_differ b c), (less_differ a c) by congruence.
    intros _. by rewrite Eab.
  - rewrite (less_differ a b), (less_tie b c), (less_differ a c) by congruence.
    intros H _. by rewrite <- Ebc.
  - rewrite (less_differ a b), (less_differ b c) by done.
    intros H1 H2. pose proof (Before_trans _ _ _ H1 H2) as H3.
    rewrite less_differ; [done|].
    intros E. rewrite E, Before_irrefl in H3. done.
Qed.

Lemma less_incomparable a b :
  less exps a b = false → less exps b a = false → a = b.
Proof.
  intros H1 H2. destruct (decide (a = b)) as [|Hne]; [done|].
  destruct (less_total a b Hne); congruence.
Qed.

Lemma less_StrictWeakOrder : StrictWeakOrder (less exps).
Proof.
  split.
  - apply less_irrefl.
  - apply less_trans.
  - intros a b c H1 H2 H3 H4.
    rewrite (less_incomparable a b H1 H2), <- (less_incomparable b c H3 H4).
    split; apply less_irrefl.
Qed.

#[local] Instance not_before_trans : Transitive (not_before (less exps)).
Proof.
  intros a b c Hab Hbc. unfold not_before in *.
  destruct (decide (a = b)) as [->|Nab]; [done|].
  destruct (decide (b = c)) as [->|Nbc]; [done|].
  destruct (less_total a b Nab) as [H1|H1]; [|congruence].
  destruct (less_total b c Nbc) as [H2|H2]; [|congruence].
  apply less_asym. by apply less_trans with b.
Qed.

#[local] Instance not_before_antisym : AntiSymm (=) (not_before (less exps)).
Proof. intros a b Hab Hba. by apply less_incomparable. Qed.

End less_order.

(** ** Insertion sort meets the contract of [sort.Slice] *)

Section insertion.
Variable lt : string → string → bool.
Hypothesis lt_asym : ∀ a b, lt a b = true → lt b a = false.

(** The reversed prefix is sorted downwards. *)
Let later : relation string := λ a b, lt a b = false.

Lemma insert_back_perm x rp : insert_back lt x rp ≡ₚ x :: rp.
Proof.
  induction rp as [|y rp IH]; simpl; [done|].
  destruct (lt x y); [|done].
  rewrite IH. apply Permutation_swap.
Qed.

Lemma insert_back_HdRel x y rp :
  later y x → HdRel later y rp → HdRel later y (insert_back lt x rp).
Proof.
  intros Hyx Hhd. destruct rp as [|z rp]; simpl.
  - by constructor.
  - destruct (lt x z); constructor; [by inv Hhd|done].
Qed.

Lemma insert_back_sorted x rp :
  Sorted later rp → Sorted later (insert_back lt x rp).
Proof.
  induction 1 as [|y rp Hs IH Hhd]; simpl.
  - repeat constructor.
  - destruct (lt x y) eqn:Hxy.
    + constructor; [done|].
      apply insert_back_HdRel; [|done]. by apply lt_asym.
    + constructor; [by constructor|by constructor].
Qed.

Lemma insertion_fold_perm l : ∀ acc,
  fold_left (λ rp x, insert_back lt x rp) l acc ≡ₚ (l ++ acc)%list.
Proof.
  induction l as [|x l IH]; intros acc; simpl; [done|].
  rewrite IH, insert_back_perm. by rewrite Permutation_middle.
Qed.

Lemma insertion_fold_sorted l : ∀ acc,
  Sorted later acc → Sorted later (fold_left (λ rp x, insert_back lt x rp) l acc).
Proof.
  induction l as [|x l IH]; intros acc Hacc; simpl; [done|].
  by apply IH, insert_back_sorted.
Qed.

Lemma insertionSort_perm l : insertionSort lt l ≡ₚ l.
Proof.
  unfold insertionSort.
  rewrite reverse_Permutation, insertion_fold_perm. by rewrite app_nil_r.
Qed.

Lemma insertionSort_sorted l : Sorted (not_before lt) (insertionSort lt l).
Proof.
  unfold insertionSort.
  apply (Sorted_reverse later), insertion_fold_sorted. constructor.
Qed.
End insertion.

Lemma insertionSort_contract : sort_Slice_contract insertionSort.
Proof.
  intros lt l Hswo. split.
  - apply insertionSort_perm.
  - apply insertionSort_sorted. intros a b Hab.
    destruct (lt b a) eqn:Hba; [|done].
    by rewrite <- (swo_irrefl lt Hswo a), (swo_trans lt Hswo a b a Hab Hba).
Qed.

(** ** The prober *)

Lemma earliest_cons exp c certs :
  earliest exp (c :: certs)
  = earliest (if Before (NotAfter c) exp then NotAfter c else exp) certs.
Proof. reflexivity. Qed.

Lemma earliest_le_init certs : ∀ exp, Before exp (earliest exp certs) = false.
Proof.
  induction certs as [|c certs IH]; intros exp.
  - apply Before_irrefl.
  - rewrite earliest_cons.
    destruct (Before (NotAfter c) exp) eqn:Hc; [|apply IH].
    eapply not_Before_trans; [apply IH|].
    by apply Before_asym.
Qed.

Lemma earliest_le_each certs : ∀ exp c,
  c ∈ certs → Before (NotAfter c) (earliest exp certs) = false.
Proof.
  induction certs as [|c0 certs IH]; intros exp c Hin; [by inv Hin|].
  rewrite earliest_cons.
  inv Hin; [|by apply IH].
  destruct (Before (NotAfter c0) exp) eqn:Hc.
  - apply earliest_le_init.
  - eapply not_Before_trans; [apply earliest_le_init|apply Hc].
Qed.

Lemma earliest_elem certs : ∀ exp,
  earliest exp certs = exp ∨ ∃ c, c ∈ certs ∧ NotAfter c = earliest exp certs.
Proof.
  induction certs as [|c0 certs IH]; intros exp; [by left|].
  rewrite earliest_cons.
  destruct (IH (if Before (NotAfter c0) exp then NotAfter c0 else exp))
    as [E|(c & Hc & E)].
  - rewrite E. destruct (Before (NotAfter c0) exp); [|by left].
    right. exists c0. split; [left|done].
  - right. exists c. split; [by right|done].
Qed.

(** C2. When the handshake and the host name verification succeed and the
    peer presented at least one certificate, [FindExpirationTime] returns,
    with a nil error, the minimum of [NotAfter] over the whole chain: the
    returned time is the [NotAfter] of some certificate of the chain, and
    no certificate of the chain expires before it. *)
Theorem FindExpirationTime_chain_minimum net host conn :
  net "tcp" (host +:+ ":443") = inl conn →
  VerifyHostname conn host = None →
  PeerCertificates conn ≠ [] →
  ∃ t, FindExpirationTime net host = Returned (t, None)
     ∧ (∃ c, c ∈ PeerCertificates conn ∧ NotAfter c = t)
     ∧ (∀ c, c ∈ PeerCertificates conn → Before (NotAfter c) t = false).
Proof.
  intros Hdial Hverify Hne. unfold FindExpirationTime.
  rewrite Hdial, Hverify.
  destruct (PeerCertificates conn) as [|cert0 rest]; [done|].
  eexists. split; [done|]. split.
  - destruct (earliest_elem rest (NotAfter cert0)) as [E|(c & Hc & E)].
    + exists cert0. split; [left|done].
    + exists c. split; [by right|done].
  - intros c Hin. inv Hin.
    + apply earliest_le_init.
    + by apply earliest_le_each.
Qed.

Lemma FindExpirationTime_chain_minimum_witness :
  ∃ t, FindExpirationTime (net_chain chain_2030_2025) "example.org" = Returned (t, None)
     ∧ (∃ c, c ∈ chain_2030_2025 ∧ NotAfter c = t)
     ∧ (∀ c, c ∈ chain_2030_2025 → Before (NotAfter c) t = false).
Proof.
  apply (FindExpirationTime_chain_minimum (net_chain chain_2030_2025) "example.org"
           (mkConn (λ _, None) chain_2030_2025)); [reflexivity|reflexivity|discriminate].
Defined.

Example FindExpirationTime_not_the_leaf :
  FindExpirationTime (net_chain chain_2030_2025) "example.org" = Returned (t2025, None).
Proof. reflexivity. Qed.

(** The index at line 76 has no guard of its own: on a connection that
    were verified without a certificate, [FindExpirationTime] would
    panic.  It is [VerifyHostname], called before, that keeps the prober
    from this state (see [tls_client_conn]). *)
Lemma FindExpirationTime_unguarded_index net host conn :
  net "tcp" (host +:+ ":443") = inl conn →
  VerifyHostname conn host = None →
  PeerCertificates conn = [] →
  FindExpirationTime net host = Panicked index_out_of_range.
Proof.
  intros Hdial Hverify Hempty. unfold FindExpirationTime.
  by rewrite Hdial, Hverify, Hempty.
Qed.




Example FindExpirationTime_no_certificates :
  FindExpirationTime net_no_certificates "example.org"
  = Returned (zero, Some (Err "tls: handshake did not verify certificate chain")).
Proof. reflexivity. Qed.

(** C7. [FindExpirationTime] returns an error exactly when the connection
    or the verification of the host name fails.  On such a failure it
    returns that error with the zero time; a returned error always stems
    from one of the two failures; and when both succeed (on a chain with
    a certificate) it returns a time and a nil error. *)
Theorem FindExpirationTime_error_iff net host :
  (∀ err, net "tcp" (host +:+ ":443") = inr err →
     FindExpirationTime net host = Returned (zero, Some err))
  ∧ (∀ conn err, net "tcp" (host +:+ ":443") = inl conn →
       VerifyHostname conn host = Some err →
       FindExpirationTime net host = Returned (zero, Some err))
  ∧ (∀ t err, FindExpirationTime net host = Returned (t, Some err) ↔
       t = zero ∧ (net "tcp" (host +:+ ":443") = inr err
                   ∨ ∃ conn, net "tcp" (host +:+ ":443") = inl conn
                             ∧ VerifyHostname conn host = Some err))
  ∧ (∀ conn, net "tcp" (host +:+ ":443") = inl conn →
       VerifyHostname conn host = None →
       PeerCertificates conn ≠ [] →
       ∃ t, FindExpirationTime net host = Returned (t, None))
  ∧ (∀ t, FindExpirationTime net host = Returned (t, None) →
       ∃ conn, net "tcp" (host +:+ ":443") = inl conn
               ∧ VerifyHostname conn host = None).
Proof.
  unfold FindExpirationTime.
  destruct (net "tcp" (host +:+ ":443")) as [conn|err0] eqn:Hdial;
    [destruct (VerifyHostname conn host) as [err1|] eqn:Hverify;
       [|destruct (PeerCertificates conn) as [|cert0 rest] eqn:Hcerts]|];
    split_and!; naive_solver.
Qed.

Lemma FindExpirationTime_error_iff_witness :
  FindExpirationTime net_unreachable "example.org"
    = Returned (zero, Some (Err "dial tcp: connect: connection refused"))
  ∧ FindExpirationTime (net_wrong_host chain_2030_2025) "example.org"
    = Returned (zero, Some (Err "x509: certificate is valid for another host"))
  ∧ ∃ t, FindExpirationTime (net_chain chain_2030_2025) "example.org" = Returned (t, None).
Proof.
  split; [|split].
  - apply (proj1 (FindExpirationTime_error_iff net_unreachable "example.org")).
    reflexivity.
  - apply (proj1 (proj2 (FindExpirationTime_error_iff
             (net_wrong_host chain_2030_2025) "example.org"))
             (mkConn (λ _, Some (Err "x509: certificate is valid for another host"))
                     chain_2030_2025));
      reflexivity.
  - apply (proj1 (proj2 (proj2 (proj2 (FindExpirationTime_error_iff
             (net_chain chain_2030_2025) "example.org"))))
             (mkConn (λ _, None) chain_2030_2025));
      [reflexivity|reflexivity|discriminate].
Defined.

(** ** The monitor *)

Lemma FindExpirationTime_error_zero net host t err :
  FindExpirationTime net host = Returned (t, Some err) → t = zero.
Proof.
  unfold FindExpirationTime. repeat case_match; naive_solver.
Qed.

Lemma monitor_cycle_returns net dom w exp err :
  FindExpirationTime net dom = Returned (exp, err) →
  monitor_cycle net dom w
  = Returned (tt, mkWorld (<[dom := exp]> (expirations w))
                          (<[dom := float64 (Unix exp)]> (certExpirations w))
                          (events w ++ [EvGaugeSet dom (float64 (Unix exp));
                                        EvLock; EvStore dom exp; EvUnlock])).
Proof.
  intros Hprobe.
  unfold monitor_cycle, mbind, M_bind, call, mutex_Lock, mutex_Unlock, emit,
    gauge_Set, map_store.
  rewrite Hprobe. simpl. by rewrite <- !app_assoc.
Qed.

Lemma monitor_cycle_panics net dom w msg :
  FindExpirationTime net dom = Panicked msg →
  monitor_cycle net dom w = Panicked msg.
Proof.
  intros Hprobe. unfold monitor_cycle, mbind, M_bind, call. by rewrite Hprobe.
Qed.

(** The goroutine stops at the cancellation of the context, and until
    then makes one pass per tick. *)
Lemma monitor_done dom sigs w : monitor dom (CtxDone :: sigs) w = Returned (tt, w).
Proof. reflexivity. Qed.

Lemma monitor_tick dom net sigs w w' :
  monitor_cycle net dom w = Returned (tt, w') →
  monitor dom (Tick net :: sigs) w = monitor dom sigs w'.
Proof.
  intros Hpass. simpl. unfold mbind, M_bind at 1. by rewrite Hpass.
Qed.

(** Counterexample to C1: after a pass whose probe fails, the entry of the
    domain is the zero time, whatever it was before. *)
Lemma failed_probe_overwrites_entry :
  (∃ t err, FindExpirationTime net_unreachable "example.org" = Returned (t, Some err))
  ∧ ∃ w', monitor_cycle net_unreachable "example.org" probed_world = Returned (tt, w')
        ∧ expirations probed_world !! "example.org" = Some t2030
        ∧ expirations w' !! "example.org" = Some zero
        ∧ expirations w' !! "example.org" ≠ expirations probed_world !! "example.org".
Proof.
  split; [by eexists _, _|].
  eexists. split; [reflexivity|]. simpl.
  rewrite lookup_insert_eq, lookup_singleton_eq. split_and!; done.
Qed.

(** C1, as the code has it.  The monitor discards the error of the probe
    and stores what the prober returned: after a pass whose probe fails,
    the entry of the domain is the zero time; the entries of the other
    domains are as before. *)
Theorem failed_probe_stores_zero net dom w t err :
  FindExpirationTime net dom = Returned (t, Some err) →
  ∃ w', monitor_cycle net dom w = Returned (tt, w')
      ∧ expirations w' !! dom = Some zero
      ∧ ∀ other, other ≠ dom → expirations w' !! other = expirations w !! other.
Proof.
  intros Hprobe.
  pose proof (FindExpirationTime_error_zero _ _ _ _ Hprobe) as ->.
  eexists. split; [by apply monitor_cycle_returns with (err := Some err)|].
  simpl. split.
  - apply lookup_insert_eq.
  - intros other Hne. by apply lookup_insert_ne.
Qed.

Lemma failed_probe_stores_zero_witness :
  ∃ w', monitor_cycle net_unreachable "example.org" probed_world = Returned (tt, w')
      ∧ expirations w' !! "example.org" = Some zero
      ∧ ∀ other, other ≠ "example.org" →
          expirations w' !! other = expirations probed_world !! other.
Proof.
  apply (failed_probe_stores_zero net_unreachable "example.org" probed_world zero
           (Err "dial tcp: connect: connection refused")).
  reflexivity.
Defined.

(** C10. In every pass in which the prober returns, with or without an
    error, the monitor sets the gauge of its domain to the Unix seconds
    of the returned time, and does so before it locks the mutex and
    stores to the table.  When the prober returned an error, that value
    is -62135596800, the Unix seconds of the zero time. *)
Theorem monitor_sets_gauge_first net dom w exp err :
  FindExpirationTime net dom = Returned (exp, err) →
  ∃ w', monitor_cycle net dom w = Returned (tt, w')
      ∧ events w' = (events w ++ [EvGaugeSet dom (float64 (Unix exp));
                                  EvLock; EvStore dom exp; EvUnlock])%list
      ∧ certExpirations w' !! dom = Some (float64 (Unix exp))
      ∧ (is_Some err → float64 (Unix exp) = -62135596800).
Proof.
  intros Hprobe. eexists. split; [by apply monitor_cycle_returns with (err := err)|].
  simpl. split_and!; [done|apply lookup_insert_eq|].
  intros [e ->].
  by rewrite (FindExpirationTime_error_zero _ _ _ _ Hprobe).
Qed.

Lemma monitor_sets_gauge_first_witness :
  ∃ w', monitor_cycle net_unreachable "example.org" probed_world = Returned (tt, w')
      ∧ events w' = [EvGaugeSet "example.org" (-62135596800); EvLock;
                     EvStore "example.org" zero; EvUnlock]
      ∧ certExpirations w' !! "example.org" = Some (-62135596800)
      ∧ (is_Some (Some (Err "dial tcp: connect: connection refused")) →
         -62135596800 = -62135596800).
Proof.
  apply (monitor_sets_gauge_first net_unreachable "example.org" probed_world zero
           (Some (Err "dial tcp: connect: connection refused"))).
  reflexivity.
Defined.

(** ** The status page *)

Lemma for_range_rows domains : ∀ w,
  for_range domains (λ domain,
    exp ← map_load domain; Fprintf (page_row domain exp)) w
  = Returned (tt, mkWorld (expirations w) (certExpirations w)
       (events w ++ map (λ domain, EvFprintf (page_row domain (expirations w !!! domain)))
                        domains)).
Proof.
  induction domains as [|d domains IH]; intros w; simpl.
  - rewrite app_nil_r. by destruct w.
  - unfold mbind, M_bind at 1. unfold mbind, M_bind at 1.
    unfold map_load at 1. unfold Fprintf at 1. unfold emit at 1.
    rewrite IH. simpl. by rewrite <- app_assoc.
Qed.

Lemma HandleStatus_returns sort_Slice order w :
  HandleStatus sort_Slice order w
  = Returned (tt, mkWorld (expirations w) (certExpirations w)
       (events w ++ status_events (expirations w)
                      (sort_Slice (less (expirations w)) order))).
Proof.
  unfold HandleStatus, status_events.
  unfold mbind, M_bind, mutex_Lock, mutex_Unlock, get_expirations, Fprintf, emit.
  simpl. rewrite for_range_rows. simpl.
  f_equal. f_equal. f_equal.
  rewrite <- !app_assoc. done.
Qed.

Lemma less_ordered exps a b : less exps a b = true ↔ ordered exps a b.
Proof.
  unfold ordered. destruct (decide (exps !!! a = exps !!! b)) as [E|N].
  - rewrite less_tie by done. rewrite E, Before_irrefl. naive_solver.
  - rewrite less_differ by done. naive_solver.
Qed.

Lemma ordered_asym exps a b : ordered exps a b → ordered exps b a → False.
Proof.
  rewrite <- !less_ordered. intros H1 H2.
  apply less_asym in H1. congruence.
Qed.

Lemma ordered_irrefl exps a : ¬ ordered exps a a.
Proof. intros H. by apply (ordered_asym exps a a). Qed.

Lemma range_order_NoDup exps order : range_order exps order → NoDup order.
Proof.
  intros H. unfold range_order in H. rewrite H. apply NoDup_fst_map_to_list.
Qed.

Lemma range_order_elem exps order d :
  range_order exps order → d ∈ order ↔ is_Some (exps !! d).
Proof.
  intros H. unfold range_order in H. rewrite H.
  rewrite list_elem_of_fmap. split.
  - intros ([d' t] & -> & Hin). apply elem_of_map_to_list in Hin. by exists t.
  - intros [t Ht]. exists (d, t). split; [done|]. by apply elem_of_map_to_list.
Qed.

Lemma StronglySorted_strict exps l :
  NoDup l → StronglySorted (not_before (less exps)) l →
  StronglySorted (ordered exps) l.
Proof.
  induction 2 as [|a l Hl IH Hall]; [constructor|].
  apply NoDup_cons in H as [Hnotin Hnd].
  constructor; [by apply IH|].
  rewrite Forall_forall in Hall |- *. intros b Hb.
  apply less_ordered.
  destruct (less_total exps a b) as [|Hba]; [set_solver|done|].
  specialize (Hall b Hb). unfold not_before in Hall. congruence.
Qed.

Lemma StronglySorted_lookup_lt {A} (R : relation A) l i j a b :
  StronglySorted R l → l !! i = Some a → l !! j = Some b → (i < j)%nat → R a b.
Proof.
  intros Hs. revert i j. induction Hs as [|x l Hl IH Hall]; intros i j Hi Hj Hlt.
  - done.
  - destruct j as [|j]; [lia|]. destruct i as [|i]; simpl in *.
    + simplify_eq. rewrite Forall_forall in Hall.
      apply Hall. by eapply list_elem_of_lookup_2.
    + apply (IH i j); [done..|lia].
Qed.

(** Everything below holds for any implementation of [sort.Slice] that
    meets its contract. *)
Section status_page.
Variable sort_Slice : Sorter.
Hypothesis sort_Slice_ok : sort_Slice_contract sort_Slice.

Lemma sorted_perm exps order :
  sort_Slice (less exps) order ≡ₚ order.
Proof. apply sort_Slice_ok, less_StrictWeakOrder. Qed.

Lemma sorted_Sorted exps order :
  Sorted (not_before (less exps)) (sort_Slice (less exps) order).
Proof. apply sort_Slice_ok, less_StrictWeakOrder. Qed.

Lemma sorted_unique exps order domains :
  domains ≡ₚ order → Sorted (not_before (less exps)) domains →
  sort_Slice (less exps) order = domains.
Proof.
  intros Hperm Hsorted.
  apply (Sorted_unique (not_before (less exps))
           (Transitive0 := not_before_trans exps)
           (AntiSymm0 := not_before_antisym exps)).
  - apply sorted_Sorted.
  - done.
  - by rewrite sorted_perm.
Qed.

Lemma sorted_order_independent exps order1 order2 :
  range_order exps order1 → range_order exps order2 →
  sort_Slice (less exps) order2 = sort_Slice (less exps) order1.
Proof.
  intros H1 H2. apply sorted_unique; [|apply sorted_Sorted].
  rewrite sorted_perm. unfold range_order in *. by rewrite H1, H2.
Qed.

Lemma sorted_StronglySorted exps order :
  range_order exps order →
  StronglySorted (ordered exps) (sort_Slice (less exps) order).
Proof.
  intros Hrange. apply StronglySorted_strict.
  - rewrite sorted_perm. by eapply range_order_NoDup.
  - apply (Sorted_StronglySorted _ (Transitive0 := not_before_trans exps)).
    apply sorted_Sorted.
Qed.

(** C4. For every table and every two orders in which [range] may yield
    its keys, the handler renders the same list of domains, which holds
    every key once and is sorted: of two domains of the page, the first
    expires earlier, or they expire at the same time and the first has
    the smaller name. *)
Theorem status_page_sorted w order1 order2 :
  range_order (expirations w) order1 →
  range_order (expirations w) order2 →
  ∃ domains,
    StronglySorted (ordered (expirations w)) domains
    ∧ domains ≡ₚ (map_to_list (expirations w)).*1
    ∧ (∃ w1, HandleStatus sort_Slice order1 w = Returned (tt, w1)
           ∧ events w1 = (events w ++ status_events (expirations w) domains)%list)
    ∧ (∃ w2, HandleStatus sort_Slice order2 w = Returned (tt, w2)
           ∧ events w2 = (events w ++ status_events (expirations w) domains)%list).
Proof.
  intros H1 H2. exists (sort_Slice (less (expirations w)) order1). split_and!.
  - by apply sorted_StronglySorted.
  - by rewrite sorted_perm.
  - eexists. by rewrite HandleStatus_returns.
  - eexists. rewrite HandleStatus_returns.
    by rewrite (sorted_order_independent _ order1 order2).
Qed.

End status_page.

Ltac by_evaluation := apply (bool_decide_unpack _); vm_compute; exact I.

Lemma status_page_sorted_witness :
  ∃ domains,
    StronglySorted (ordered example_exps) domains
    ∧ domains ≡ₚ (map_to_list example_exps).*1
    ∧ (∃ w1, HandleStatus insertionSort example_order example_world = Returned (tt, w1)
           ∧ events w1 = status_events example_exps domains)
    ∧ (∃ w2, HandleStatus insertionSort example_order' example_world = Returned (tt, w2)
           ∧ events w2 = status_events example_exps domains).
Proof.
  apply (status_page_sorted insertionSort insertionSort_contract example_world
           example_order example_order'); by_evaluation.
Defined.

Lemma page_row_zero domain : page_row domain zero = zero_row domain.
Proof. reflexivity. Qed.

Lemma example_sorted :
  Sorted (not_before (less example_exps)) ["c.example"; "a.example"; "b.example"].
Proof. by_evaluation. Qed.

Section status_page_unknown.
Variable sort_Slice : Sorter.
Hypothesis sort_Slice_ok : sort_Slice_contract sort_Slice.

Lemma page_position exps order i j a b :
  range_order exps order →
  sort_Slice (less exps) order !! i = Some a →
  sort_Slice (less exps) order !! j = Some b →
  ordered exps a b → (i < j)%nat.
Proof.
  intros Hrange Hi Hj Hab.
  pose proof (sorted_StronglySorted _ sort_Slice_ok _ _ Hrange) as Hs.
  destruct (lt_eq_lt_dec i j) as [[Hlt | ->] | Hgt]; [done| |].
  - rewrite Hi in Hj. injection Hj as ->. by apply ordered_irrefl in Hab.
  - pose proof (StronglySorted_lookup_lt _ _ _ _ _ _ Hs Hj Hi Hgt) as Hba.
    destruct (ordered_asym _ _ _ Hab Hba).
Qed.

(** C5, as the code has it.  A domain whose entry is the zero time, as
    it is before its first probe, is on the page, and its row shows the
    zero time, 0001-01-01T00:00:00Z; the page has no other marker for
    it.  Its row comes before the row of every domain that expires
    after the zero time, and the rows of two such domains are in the
    order of their names.  For the table with b.example until 2030,
    a.example until 2025 and c.example not probed, the page lists
    c.example, a.example, b.example. *)
Theorem unprobed_shown_as_zero_time :
  (∀ w order, range_order (expirations w) order →
     ∃ domains w',
       HandleStatus sort_Slice order w = Returned (tt, w')
       ∧ events w' = (events w ++ status_events (expirations w) domains)%list
       ∧ (∀ d, expirations w !! d = Some zero →
            d ∈ domains ∧ page_row d (expirations w !!! d) = zero_row d)
       ∧ (∀ i j d e, domains !! i = Some d → domains !! j = Some e →
            expirations w !! d = Some zero →
            Before zero (expirations w !!! e) = true → (i < j)%nat)
       ∧ (∀ i j d e, domains !! i = Some d → domains !! j = Some e →
            expirations w !! d = Some zero → expirations w !! e = Some zero →
            String.ltb d e = true → (i < j)%nat))
  ∧ (∀ order, range_order example_exps order →
       ∃ w', HandleStatus sort_Slice order example_world = Returned (tt, w')
           ∧ events w' = status_events example_exps
                           ["c.example"; "a.example"; "b.example"]).
Proof.
  split.
  - intros w order Hrange.
    exists (sort_Slice (less (expirations w)) order). eexists.
    split; [apply HandleStatus_returns|]. split; [done|]. split_and!.
    + intros d Hd. split.
      * rewrite sorted_perm by done. apply (range_order_elem _ _ _ Hrange).
        by exists zero.
      * rewrite (lookup_total_correct _ _ _ Hd). apply page_row_zero.
    + intros i j d e Hi Hj Hd He.
      apply (page_position _ _ _ _ _ _ Hrange Hi Hj). left.
      by rewrite (lookup_total_correct _ _ _ Hd).
    + intros i j d e Hi Hj Hd He Hlt.
      apply (page_position _ _ _ _ _ _ Hrange Hi Hj). right.
      by rewrite (lookup_total_correct _ _ _ Hd), (lookup_total_correct _ _ _ He).
  - intros order Hrange. eexists. split; [apply HandleStatus_returns|].
    simpl. f_equal.
    apply sorted_unique; [done| |apply example_sorted].
    unfold range_order in Hrange. rewrite Hrange. by_evaluation.
Qed.

End status_page_unknown.

Lemma unprobed_shown_as_zero_time_witness :
  (∃ domains w',
     HandleStatus insertionSort example_order example_world = Returned (tt, w')
     ∧ events w' = (events example_world ++ status_events example_exps domains)%list
     ∧ (∀ d, example_exps !! d = Some zero →
          d ∈ domains ∧ page_row d (example_exps !!! d) = zero_row d)
     ∧ (∀ i j d e, domains !! i = Some d → domains !! j = Some e →
          example_exps !! d = Some zero →
          Before zero (example_exps !!! e) = true → (i < j)%nat)
     ∧ (∀ i j d e, domains !! i = Some d → domains !! j = Some e →
          example_exps !! d = Some zero → example_exps !! e = Some zero →
          String.ltb d e = true → (i < j)%nat))
  ∧ ∃ w', HandleStatus insertionSort example_order example_world = Returned (tt, w')
        ∧ events w' = status_events example_exps ["c.example"; "a.example"; "b.example"].
Proof.
  split.
  - apply (proj1 (unprobed_shown_as_zero_time insertionSort insertionSort_contract)
             example_world example_order).
    by_evaluation.
  - apply (proj2 (unprobed_shown_as_zero_time insertionSort insertionSort_contract)
             example_order).
    by_evaluation.
Defined.

(** Counterexample to C5: the page of the example shows c.example, which
    was never probed, with the time 0001-01-01T00:00:00Z, and the word
    unknown occurs nowhere in the response. *)
Lemma unprobed_has_no_marker :
  ∃ w', HandleStatus insertionSort example_order example_world = Returned (tt, w')
      ∧ expirations example_world !! "c.example" = Some zero
      ∧ contains "<tr><td>c.example</td><td>0001-01-01T00:00:00Z</td></tr>"
                 (response example_world w') = true
      ∧ contains "unknown" (response example_world w') = false.
Proof.
  eexists. split; [apply HandleStatus_returns|].
  split_and!; vm_compute; reflexivity.
Qed.

Lemma writes_under_lock_rows (exps : gmap string Time) domains rest :
  writes_when false true
    (map (λ domain, EvFprintf (page_row domain (exps !!! domain))) domains ++ rest)
  = writes_when false true rest.
Proof. induction domains as [|d domains IH]; simpl; done. Qed.

Lemma stored_status_events (exps : gmap string Time) domains :
  stored (status_events exps domains) = [].
Proof.
  unfold status_events. simpl.
  induction domains as [|d domains IH]; simpl; done.
Qed.

(** Counterexample to C6: in a run of the handler, it is not the case that
    the writes to the response happen while the mutex is free; they all
    happen while it is held. *)
Lemma HandleStatus_writes_while_locked :
  ∃ w', HandleStatus insertionSort example_order example_world = Returned (tt, w')
      ∧ writes_when true false (events w') = false
      ∧ writes_when false false (events w') = true
      ∧ last (events w') = Some EvUnlock.
Proof.
  eexists. split; [apply HandleStatus_returns|].
  split_and!; vm_compute; reflexivity.
Qed.

(** C6, as the code has it.  The handler locks the mutex on entry and,
    the unlock being deferred, releases it when it returns: reading the
    keys, sorting, reading each entry, formatting and every write to the
    response happen while the mutex is held.  Only the keys are copied;
    the entries are read from the map itself, row by row. *)
Theorem HandleStatus_holds_lock sort_Slice order w :
  ∃ domains w',
    HandleStatus sort_Slice order w = Returned (tt, w')
    ∧ events w' = (events w ++ status_events (expirations w) domains)%list
    ∧ head (status_events (expirations w) domains) = Some EvLock
    ∧ last (status_events (expirations w) domains) = Some EvUnlock
    ∧ writes_when false false (status_events (expirations w) domains) = true
    ∧ writes_when true false (status_events (expirations w) domains) = false.
Proof.
  exists (sort_Slice (less (expirations w)) order). eexists.
  split; [apply HandleStatus_returns|]. split; [done|].
  unfold status_events. split_and!.
  - done.
  - rewrite !last_cons, last_app. simpl. by repeat case_match.
  - simpl. by rewrite writes_under_lock_rows.
  - done.
Qed.

Section status_page_pure.
Variable sort_Slice : Sorter.
Hypothesis sort_Slice_ok : sort_Slice_contract sort_Slice.

(** C9. Two runs of the handler on the same table, with no store in
    between and whatever the orders in which [range] yields the keys,
    write the same response, and neither run changes the table (nor the
    gauge). *)
Theorem rendering_deterministic w order1 order2 :
  range_order (expirations w) order1 →
  range_order (expirations w) order2 →
  ∃ w1 w2,
    HandleStatus sort_Slice order1 w = Returned (tt, w1)
    ∧ HandleStatus sort_Slice order2 w1 = Returned (tt, w2)
    ∧ expirations w1 = expirations w ∧ expirations w2 = expirations w
    ∧ certExpirations w1 = certExpirations w ∧ certExpirations w2 = certExpirations w
    ∧ stored_between w w1 = [] ∧ stored_between w1 w2 = []
    ∧ response w w1 = response w1 w2.
Proof.
  intros H1 H2. eexists _, _.
  split; [apply HandleStatus_returns|].
  split; [apply HandleStatus_returns|].
  simpl. split_and!; try done.
  - unfold stored_between. simpl. rewrite drop_app_length.
    apply stored_status_events.
  - unfold stored_between. simpl. rewrite drop_app_length.
    apply stored_status_events.
  - unfold response. simpl. rewrite !drop_app_length.
    by rewrite (sorted_order_independent _ sort_Slice_ok _ order1 order2).
Qed.

End status_page_pure.

Lemma rendering_deterministic_witness :
  ∃ w1 w2,
    HandleStatus insertionSort example_order example_world = Returned (tt, w1)
    ∧ HandleStatus insertionSort example_order' w1 = Returned (tt, w2)
    ∧ expirations w1 = example_exps ∧ expirations w2 = example_exps
    ∧ certExpirations w1 = ∅ ∧ certExpirations w2 = ∅
    ∧ stored_between example_world w1 = [] ∧ stored_between w1 w2 = []
    ∧ response example_world w1 = response w1 w2.
Proof.
  apply (rendering_deterministic insertionSort insertionSort_contract example_world
           example_order example_order'); by_evaluation.
Defined.

(** ** The table and its writers *)

Lemma NewCertMon_goroutines_fold domains : ∀ st,
  (fold_left NewCertMon_iteration domains st).2 = (st.2 ++ domains)%list.
Proof.
  induction domains as [|d domains IH]; intros st; simpl.
  - by rewrite app_nil_r.
  - rewrite IH. simpl. by rewrite <- app_assoc.
Qed.

Lemma NewCertMon_dom_fold domains : ∀ st,
  dom (fold_left NewCertMon_iteration domains st).1
  =@{gset string} list_to_set domains ∪ dom st.1.
Proof.
  induction domains as [|d domains IH]; intros st; simpl.
  - set_solver.
  - rewrite IH. simpl. rewrite dom_insert_L. set_solver.
Qed.

Lemma NewCertMon_lookup_last domains : ∀ st d,
  d ∉ domains → st.1 !! d = Some zero →
  (fold_left NewCertMon_iteration domains st).1 !! d = Some zero.
Proof.
  induction domains as [|d1 domains IH]; intros st d Hnotin Hst; simpl; [done|].
  apply IH; [set_solver|]. simpl.
  rewrite lookup_insert_ne by set_solver. done.
Qed.

Lemma NewCertMon_lookup_fold domains : ∀ st d,
  d ∈ domains →
  (fold_left NewCertMon_iteration domains st).1 !! d = Some zero.
Proof.
  induction domains as [|d0 domains IH]; intros st d Hin; [by inv Hin|].
  simpl. destruct (decide (d ∈ domains)) as [Hd|Hd]; [by apply IH|].
  assert (d = d0) as <- by set_solver.
  apply NewCertMon_lookup_last; [done|]. simpl. apply lookup_insert_eq.
Qed.

Lemma NewCertMon_lookup_other domains : ∀ st d,
  d ∉ domains →
  (fold_left NewCertMon_iteration domains st).1 !! d = st.1 !! d.
Proof.
  induction domains as [|d1 domains IH]; intros st d Hnotin; simpl; [done|].
  rewrite IH by set_solver. simpl. apply lookup_insert_ne. set_solver.
Qed.

Lemma NewCertMon_lookup domains d :
  (NewCertMon domains).1 !! d = if decide (d ∈ domains) then Some zero else None.
Proof.
  unfold NewCertMon. case_decide.
  - by apply NewCertMon_lookup_fold.
  - by rewrite NewCertMon_lookup_other.
Qed.

(** The table does not depend on the order in which the domains are
    configured. *)
Lemma NewCertMon_configured_order domains1 domains2 :
  domains1 ≡ₚ domains2 → (NewCertMon domains1).1 = (NewCertMon domains2).1.
Proof.
  intros Hperm. apply map_eq. intros d. rewrite !NewCertMon_lookup.
  repeat case_decide; try done.
  - by rewrite Hperm in *.
  - by rewrite <- Hperm in *.
Qed.

Lemma NewCertMon_goroutines domains : (NewCertMon domains).2 = domains.
Proof. unfold NewCertMon. by rewrite NewCertMon_goroutines_fold. Qed.

Lemma NewCertMon_dom domains :
  dom (NewCertMon domains).1 =@{gset string} list_to_set domains.
Proof. unfold NewCertMon. rewrite NewCertMon_dom_fold. set_solver. Qed.

Lemma monitor_cycle_inv net dom w w' :
  monitor_cycle net dom w = Returned (tt, w') →
  ∃ exp, expirations w' = <[dom := exp]> (expirations w)
       ∧ stored_between w w' = [dom].
Proof.
  destruct (FindExpirationTime net dom) as [[exp err]|msg] eqn:Hprobe.
  - rewrite (monitor_cycle_returns _ _ _ _ _ Hprobe). intros [= <-].
    exists exp. split; [done|].
    unfold stored_between. simpl. by rewrite drop_app_length.
  - by rewrite (monitor_cycle_panics _ _ _ _ Hprobe).
Qed.

Lemma step_preserves_keys goroutines w w' :
  step goroutines w w' →
  dom (expirations w) =@{gset string} list_to_set goroutines →
  dom (expirations w') =@{gset string} list_to_set goroutines.
Proof.
  intros [i dom net w1 w2 Hi Hrun|srt order w1 w2 Hrange Hrun] Hkeys.
  - apply monitor_cycle_inv in Hrun as (exp & -> & _).
    rewrite dom_insert_L, Hkeys.
    apply list_elem_of_lookup_2 in Hi. set_solver.
  - rewrite HandleStatus_returns in Hrun. by injection Hrun as <-.
Qed.

Lemma reachable_keys domains w :
  reachable domains w → dom (expirations w) =@{gset string} list_to_set domains.
Proof.
  unfold reachable. rewrite NewCertMon_goroutines.
  revert w. apply rtc_ind_r.
  - apply NewCertMon_dom.
  - intros w1 w2 _ Hstep IH. by eapply step_preserves_keys.
Qed.

Lemma writers_from_spec goroutines key : ∀ k i,
  i ∈ writers_from k goroutines key ↔
  ∃ j, i = (k + j)%nat ∧ goroutines !! j = Some key.
Proof.
  induction goroutines as [|dom goroutines IH]; intros k i; simpl.
  - split; [by intros H; inv H|by intros (j & _ & ?)].
  - destruct (decide (dom = key)) as [->|Hne].
    + rewrite elem_of_cons, IH. split.
      * intros [->|(j & -> & Hj)]; [exists 0%nat|exists (S j)]; split; (lia || done).
      * intros ([|j] & -> & Hj); [left; lia|right]. exists j. split; [lia|done].
    + rewrite IH. split.
      * intros (j & -> & Hj). exists (S j). split; [lia|done].
      * intros ([|j] & -> & Hj); simpl in Hj; [congruence|].
        exists j. split; [lia|done].
Qed.

Lemma writers_from_absent goroutines key : ∀ k,
  key ∉ goroutines → writers_from k goroutines key = [].
Proof.
  induction goroutines as [|dom goroutines IH]; intros k Hnotin; simpl; [done|].
  rewrite decide_False by set_solver. apply IH. set_solver.
Qed.

Lemma writers_from_single goroutines key : ∀ k,
  NoDup goroutines → key ∈ goroutines →
  length (writers_from k goroutines key) = 1%nat.
Proof.
  induction goroutines as [|dom goroutines IH]; intros k Hnd Hin; [by inv Hin|].
  apply NoDup_cons in Hnd as [Hnotin Hnd]. simpl.
  destruct (decide (dom = key)) as [->|Hne].
  - by rewrite writers_from_absent.
  - apply IH; [done|set_solver].
Qed.

(** Counterexample to C8, a configuration that repeats a domain: two
    goroutines are started for the one key, and both store to it. *)
Lemma repeated_domain_two_writers :
  (NewCertMon repeated_domains).2 !! 0%nat = Some "example.org"
  ∧ (NewCertMon repeated_domains).2 !! 1%nat = Some "example.org"
  ∧ writers (NewCertMon repeated_domains).2 "example.org" = [0%nat; 1%nat]
  ∧ ∃ w1 w2,
      monitor_cycle net_unreachable "example.org" (initial repeated_domains)
        = Returned (tt, w1)
      ∧ monitor_cycle (net_chain chain_2030_2025) "example.org" w1 = Returned (tt, w2)
      ∧ stored_between (initial repeated_domains) w1 = ["example.org"]
      ∧ stored_between w1 w2 = ["example.org"].
Proof.
  split_and!; [reflexivity..|].
  eexists _, _. split_and!; reflexivity.
Qed.

(** C8, as the code has it.  [NewCertMon] enters the zero time for every
    configured domain and starts one goroutine per element of the list.
    In every state the system reaches, the keys of the table are the
    configured domains: no pass of a monitor and no run of the handler
    adds or deletes a key.  A pass of the goroutine started for a domain
    stores to the key of that domain and to no other, so the goroutines
    that store to a key are those started for it.  When the list names no
    domain twice, every key has exactly one such goroutine. *)
Theorem table_keys_fixed domains :
  (NewCertMon domains).2 = domains
  ∧ (∀ d, d ∈ domains → expirations (initial domains) !! d = Some zero)
  ∧ (∀ w, reachable domains w →
       dom (expirations w) =@{gset string} list_to_set domains)
  ∧ (∀ net dom w w', monitor_cycle net dom w = Returned (tt, w') →
       stored_between w w' = [dom])
  ∧ (∀ key i, i ∈ writers (NewCertMon domains).2 key ↔ domains !! i = Some key)
  ∧ (NoDup domains → ∀ key, key ∈ domains →
       length (writers (NewCertMon domains).2 key) = 1%nat).
Proof.
  split_and!.
  - apply NewCertMon_goroutines.
  - intros d Hd. by apply NewCertMon_lookup_fold.
  - apply reachable_keys.
  - intros net dom w w' Hrun. by apply monitor_cycle_inv in Hrun as (exp & _ & ?).
  - intros key i. rewrite NewCertMon_goroutines. unfold writers.
    rewrite writers_from_spec. naive_solver.
  - intros Hnd key Hin. rewrite NewCertMon_goroutines.
    by apply writers_from_single.
Qed.

Lemma table_keys_fixed_witness :
  ∃ w, reachable distinct_domains w
     ∧ expirations w !! "a.example" = Some t2025
     ∧ dom (expirations w) =@{gset string} list_to_set distinct_domains
     ∧ length (writers (NewCertMon distinct_domains).2 "a.example") = 1%nat.
Proof.
  assert (reachable distinct_domains
            (mkWorld (<["a.example" := t2025]> (expirations (initial distinct_domains)))
                     (<["a.example" := float64 (Unix t2025)]> ∅)
                     [EvGaugeSet "a.example" (float64 (Unix t2025)); EvLock;
                      EvStore "a.example" t2025; EvUnlock])) as Hreach.
  { apply rtc_once.
    apply (step_monitor _ 0 "a.example" (net_chain [mkCertificate t2025]));
      reflexivity. }
  eexists. split; [exact Hreach|]. split_and!.
  - reflexivity.
  - apply (proj1 (proj2 (proj2 (table_keys_fixed distinct_domains))) _ Hreach).
  - apply (proj2 (proj2 (proj2 (proj2 (proj2 (table_keys_fixed distinct_domains)))))).
    + by_evaluation.
    + by_evaluation.
Defined.

(** * Further properties of the code *)

(** ** The prober and the order of the chain *)

Lemma Before_antisym t u : Before t u = false → Before u t = false → t = u.
Proof.
  intros H1 H2. destruct (decide (t = u)) as [|Hne]; [done|].
  destruct (Before_total t u Hne); congruence.
Qed.

Lemma earliest_is_least cert0 rest :
  (∃ c, c ∈ cert0 :: rest ∧ NotAfter c = earliest (NotAfter cert0) rest)
  ∧ ∀ c, c ∈ cert0 :: rest → Before (NotAfter c) (earliest (NotAfter cert0) rest) = false.
Proof.
  split.
  - destruct (earliest_elem rest (NotAfter cert0)) as [E|(c & Hc & E)].
    + exists cert0. split; [left|done].
    + exists c. split; [by right|done].
  - intros c Hin. inv Hin.
    + apply earliest_le_init.
    + by apply earliest_le_each.
Qed.

Lemma earliest_subset cert1 rest1 cert2 rest2 :
  cert1 :: rest1 ⊆ cert2 :: rest2 →
  Before (earliest (NotAfter cert1) rest1) (earliest (NotAfter cert2) rest2) = false.
Proof.
  intros Hsub.
  destruct (earliest_is_least cert1 rest1) as [(c & Hc & <-) _].
  apply earliest_is_least. by apply Hsub.
Qed.

(** X1. The result of the prober does not depend on the order in which
    the peer presents its certificates: two verified connections whose
    chains are permutations of each other give the same result (the same
    time, or the same panic when both chains are empty). *)
Theorem FindExpirationTime_chain_order net1 net2 host conn1 conn2 :
  net1 "tcp" (host +:+ ":443") = inl conn1 →
  net2 "tcp" (host +:+ ":443") = inl conn2 →
  VerifyHostname conn1 host = None →
  VerifyHostname conn2 host = None →
  PeerCertificates conn1 ≡ₚ PeerCertificates conn2 →
  FindExpirationTime net1 host = FindExpirationTime net2 host.
Proof.
  intros Hd1 Hd2 Hv1 Hv2 Hperm. unfold FindExpirationTime.
  rewrite Hd1, Hd2, Hv1, Hv2.
  destruct (PeerCertificates conn1) as [|c1 r1], (PeerCertificates conn2) as [|c2 r2].
  - done.
  - by apply Permutation_nil_cons in Hperm.
  - symmetry in Hperm. by apply Permutation_nil_cons in Hperm.
  - do 2 f_equal. apply Before_antisym; apply earliest_subset.
    + intros c. by rewrite Hperm.
    + intros c. by rewrite Hperm.
Qed.

Lemma FindExpirationTime_chain_order_witness :
  FindExpirationTime (net_chain chain_2030_2025) "example.org"
  = FindExpirationTime (net_chain chain_2025_2030) "example.org".
Proof.
  apply (FindExpirationTime_chain_order _ _ _
           (mkConn (λ _, None) chain_2030_2025) (mkConn (λ _, None) chain_2025_2030));
    [reflexivity..|].
  apply Permutation_swap.
Defined.

(** X2. Presenting more certificates never makes the result later: when
    every certificate of one verified, non-empty chain is also in
    another, the time found on the larger chain is not after the time
    found on the smaller one. *)
Theorem FindExpirationTime_more_certificates net1 net2 host conn1 conn2 :
  net1 "tcp" (host +:+ ":443") = inl conn1 →
  net2 "tcp" (host +:+ ":443") = inl conn2 →
  VerifyHostname conn1 host = None →
  VerifyHostname conn2 host = None →
  PeerCertificates conn1 ≠ [] →
  PeerCertificates conn1 ⊆ PeerCertificates conn2 →
  ∃ t1 t2,
    FindExpirationTime net1 host = Returned (t1, None)
    ∧ FindExpirationTime net2 host = Returned (t2, None)
    ∧ Before t1 t2 = false.
Proof.
  intros Hd1 Hd2 Hv1 Hv2 Hne Hsub. unfold FindExpirationTime.
  rewrite Hd1, Hd2, Hv1, Hv2.
  destruct (PeerCertificates conn1) as [|c1 r1]; [done|].
  destruct (PeerCertificates conn2) as [|c2 r2].
  - specialize (Hsub c1). set_solver.
  - eexists _, _. split_and!; [done..|]. by apply earliest_subset.
Qed.

Lemma FindExpirationTime_more_certificates_witness :
  ∃ t1 t2,
    FindExpirationTime (net_chain [mkCertificate t2030]) "example.org" = Returned (t1, None)
    ∧ FindExpirationTime (net_chain chain_2030_2025) "example.org" = Returned (t2, None)
    ∧ Before t1 t2 = false.
Proof.
  apply (FindExpirationTime_more_certificates _ _ _
           (mkConn (λ _, None) [mkCertificate t2030])
           (mkConn (λ _, None) chain_2030_2025));
    [reflexivity..|discriminate|].
  simpl. set_solver.
Defined.

(** ** The goroutine of one domain *)

Lemma monitor_cycle_frame net dom w w' other :
  monitor_cycle net dom w = Returned (tt, w') → other ≠ dom →
  expirations w' !! other = expirations w !! other
  ∧ certExpirations w' !! other = certExpirations w !! other.
Proof.
  intros Hrun Hne.
  destruct (FindExpirationTime net dom) as [[exp err]|msg] eqn:Hprobe.
  - rewrite (monitor_cycle_returns _ _ _ _ _ Hprobe) in Hrun.
    injection Hrun as <-. simpl. by rewrite !lookup_insert_ne.
  - by rewrite (monitor_cycle_panics _ _ _ _ Hprobe) in Hrun.
Qed.

Lemma monitor_cons_tick dom net sigs w :
  monitor dom (Tick net :: sigs) w
  = match monitor_cycle net dom w with
    | Returned (_, w1) => monitor dom sigs w1
    | Panicked msg => Panicked msg
    end.
Proof.
  cbn [monitor]. unfold mbind, M_bind at 1.
  destruct (monitor_cycle net dom w) as [[[] w1]|msg]; done.
Qed.

(** X3. A goroutine touches nothing but its own domain: whatever signals
    it receives, when it returns, the entries of the table and the
    gauges of all other domains are as they were before it ran. *)
Theorem monitor_isolated dom sigs : ∀ w w' other,
  monitor dom sigs w = Returned (tt, w') → other ≠ dom →
  expirations w' !! other = expirations w !! other
  ∧ certExpirations w' !! other = certExpirations w !! other.
Proof.
  induction sigs as [|[|net] sigs IH]; intros w w' other Hrun Hne.
  - by injection Hrun as <-.
  - by injection Hrun as <-.
  - rewrite monitor_cons_tick in Hrun.
    destruct (monitor_cycle net dom w) as [[[] w1]|msg] eqn:Hpass; [|done].
    destruct (monitor_cycle_frame _ _ _ _ other Hpass Hne) as [<- <-].
    by apply IH.
Qed.

Lemma monitor_isolated_witness :
  ∃ w', monitor "other.example" example_signals probed_world = Returned (tt, w')
      ∧ expirations w' !! "example.org" = Some t2030
      ∧ certExpirations w' !! "example.org" = None.
Proof.
  eexists. split; [vm_compute; reflexivity|].
  apply (monitor_isolated "other.example" example_signals probed_world _ "example.org");
    [vm_compute; reflexivity|discriminate].
Defined.

Lemma monitor_cycle_inversion net dom w w' :
  monitor_cycle net dom w = Returned (tt, w') →
  ∃ exp err,
    FindExpirationTime net dom = Returned (exp, err)
    ∧ expirations w' = <[dom := exp]> (expirations w)
    ∧ certExpirations w' = <[dom := float64 (Unix exp)]> (certExpirations w)
    ∧ events w' = (events w ++ [EvGaugeSet dom (float64 (Unix exp)); EvLock;
                                EvStore dom exp; EvUnlock])%list.
Proof.
  intros Hrun.
  destruct (FindExpirationTime net dom) as [[exp err]|msg] eqn:Hprobe.
  - rewrite (monitor_cycle_returns _ _ _ _ _ Hprobe) in Hrun.
    injection Hrun as <-. by exists exp, err.
  - by rewrite (monitor_cycle_panics _ _ _ _ Hprobe) in Hrun.
Qed.

Lemma stored_app tr1 tr2 : stored (tr1 ++ tr2) = (stored tr1 ++ stored tr2)%list.
Proof.
  induction tr1 as [|e tr1 IH]; [done|].
  destruct e; simpl; by rewrite ?IH.
Qed.

Lemma mutex_discipline_app tr1 : ∀ tr2 held held',
  mutex_discipline held tr1 = Some held' →
  mutex_discipline held (tr1 ++ tr2) = mutex_discipline held' tr2.
Proof.
  induction tr1 as [|e tr1 IH]; intros tr2 held held' H1; simpl in *.
  - by injection H1 as ->.
  - destruct e, held; try done; by apply IH.
Qed.

Lemma monitor_events dom sigs : ∀ w w',
  monitor dom sigs w = Returned (tt, w') →
  ∃ tr, events w' = (events w ++ tr)%list
      ∧ stored tr = replicate (length (live_ticks sigs)) dom
      ∧ mutex_discipline false tr = Some false.
Proof.
  induction sigs as [|[|net] sigs IH]; intros w w' Hrun.
  - injection Hrun as <-. exists []. by rewrite app_nil_r.
  - injection Hrun as <-. exists []. by rewrite app_nil_r.
  - rewrite monitor_cons_tick in Hrun.
    destruct (monitor_cycle net dom w) as [[[] w1]|msg] eqn:Hpass; [|done].
    apply monitor_cycle_inversion in Hpass as (exp & err & _ & _ & _ & Hev).
    destruct (IH _ _ Hrun) as (tr & Htr & Hst & Hmu).
    eexists. split; [by rewrite Htr, Hev, <- app_assoc|].
    simpl. by rewrite Hst.
Qed.

(** X4. A goroutine acts on the ticks it receives before the context is
    cancelled and on nothing after: when it returns, it has stored to the
    key of its domain once per such tick and made no other store. *)
Theorem monitor_until_cancel dom sigs w w' :
  monitor dom sigs w = Returned (tt, w') →
  stored_between w w' = replicate (length (live_ticks sigs)) dom.
Proof.
  intros Hrun. apply monitor_events in Hrun as (tr & Htr & Hst & _).
  unfold stored_between. by rewrite Htr, drop_app_length.
Qed.

Lemma monitor_until_cancel_witness :
  ∃ w', monitor "example.org" example_signals probed_world = Returned (tt, w')
      ∧ stored_between probed_world w' = ["example.org"; "example.org"].
Proof.
  eexists. split; [vm_compute; reflexivity|].
  apply (monitor_until_cancel "example.org" example_signals probed_world).
  vm_compute. reflexivity.
Defined.






(** X6. The last probe before the cancellation decides: when a goroutine
    returns, the entry of its domain is the time the prober returned on
    the last tick it acted on, and the gauge of the domain is the Unix
    seconds of that same time. *)
Theorem monitor_last_probe dom sigs : ∀ w w' net,
  monitor dom sigs w = Returned (tt, w') →
  last (live_ticks sigs) = Some net →
  ∃ exp err,
    FindExpirationTime net dom = Returned (exp, err)
    ∧ expirations w' !! dom = Some exp
    ∧ certExpirations w' !! dom = Some (float64 (Unix exp)).
Proof.
  induction sigs as [|[|net0] sigs IH]; intros w w' net Hrun Hlast; [done..|].
  rewrite monitor_cons_tick in Hrun.
  destruct (monitor_cycle net0 dom w) as [[[] w1]|msg] eqn:Hpass; [|done].
  cbn [live_ticks] in Hlast.
  destruct (live_ticks sigs) as [|net1 nets] eqn:Hlive.
  - injection Hlast as <-.
    assert (w' = w1) as ->.
    { destruct sigs as [|[|net2] sigs]; [by injection Hrun..|done]. }
    apply monitor_cycle_inversion in Hpass as (exp & err & Hprobe & -> & -> & _).
    exists exp, err. by rewrite !lookup_insert_eq.
  - rewrite last_cons in Hlast.
    destruct (last (net1 :: nets)) as [net2|] eqn:Hl;
      [|by apply last_None in Hl].
    injection Hlast as <-. by apply (IH w1).
Qed.

Lemma monitor_last_probe_witness :
  ∃ w' exp err,
    monitor "example.org" example_signals probed_world = Returned (tt, w')
    ∧ FindExpirationTime (net_chain chain_2030_2025) "example.org" = Returned (exp, err)
    ∧ expirations w' !! "example.org" = Some exp
    ∧ certExpirations w' !! "example.org" = Some (float64 (Unix exp)).
Proof.
  pose proof (monitor_last_probe "example.org" example_signals probed_world) as Hlast.
  destruct (monitor "example.org" example_signals probed_world)
    as [[[] w']|msg] eqn:Hrun; [|vm_compute in Hrun; discriminate Hrun].
  destruct (Hlast w' (net_chain chain_2030_2025) eq_refl eq_refl) as (exp & err & H).
  by exists w', exp, err.
Defined.

(** ** The mutex *)

Lemma status_events_discipline (exps : gmap string Time) domains :
  mutex_discipline false (status_events exps domains) = Some false.
Proof.
  unfold status_events. simpl.
  induction domains as [|d domains IH]; simpl; done.
Qed.

(** X7. In every state the running system reaches, the mutex has been
    used in order: it was never locked while held nor unlocked while
    free, every store to the table by a monitor was made while it was
    held, and it is free again. *)
Theorem reachable_mutex_discipline domains w :
  reachable domains w → mutex_discipline false (events w) = Some false.
Proof.
  unfold reachable. revert w. apply rtc_ind_r; [done|].
  intros w1 w2 _ Hstep IH. destruct Hstep as [i dom net w1 w2 Hi Hrun|srt order w1 w2 Hrange Hrun].
  - apply monitor_cycle_inversion in Hrun as (exp & err & _ & _ & _ & ->).
    by rewrite (mutex_discipline_app _ _ _ _ IH).
  - rewrite HandleStatus_returns in Hrun. injection Hrun as <-. simpl.
    rewrite (mutex_discipline_app _ _ _ _ IH). apply status_events_discipline.
Qed.

Lemma after_one_pass_reachable : reachable distinct_domains after_one_pass.
Proof.
  apply rtc_once.
  apply (step_monitor _ 0 "a.example" (net_chain [mkCertificate t2025])); reflexivity.
Qed.

Lemma reachable_mutex_discipline_witness :
  events after_one_pass ≠ []
  ∧ mutex_discipline false (events after_one_pass) = Some false.
Proof.
  split; [discriminate|].
  apply (reachable_mutex_discipline distinct_domains after_one_pass).
  apply after_one_pass_reachable.
Defined.

(** ** The page and the table *)

Lemma written_rows (exps : gmap string Time) domains rest :
  written (map (λ domain, EvFprintf (page_row domain (exps !!! domain))) domains ++ rest)
  = page_rows exps domains (written rest).
Proof.
  induction domains as [|d domains IH]; simpl; [done|]. by rewrite IH.
Qed.

Lemma append_empty_r s : s +:+ "" = s.
Proof.
  induction s as [|c s IH]; [done|].
  change (String c (s +:+ "") = String c s). by rewrite IH.
Qed.

Lemma written_status_events (exps : gmap string Time) domains :
  written (status_events exps domains)
  = page_header +:+ page_rows exps domains page_footer.
Proof.
  unfold status_events. cbn [written]. rewrite written_rows. cbn [written].
  by rewrite append_empty_r.
Qed.

Lemma range_order_length exps order : range_order exps order → length order = size exps.
Proof.
  intros H. unfold range_order in H.
  by rewrite H, length_fmap, length_map_to_list.
Qed.

Section page_and_table.
Variable sort_Slice : Sorter.
Hypothesis sort_Slice_ok : sort_Slice_contract sort_Slice.

(** X8. The body of the response is the header, one row per key of the
    table, and the footer, in this order: the rows are those of the keys
    of the table, each once, every row showing the entry of its key, in
    the sorted order; for an empty table the body is the header followed
    by the footer. *)
Theorem response_body w order :
  range_order (expirations w) order →
  ∃ domains w',
    HandleStatus sort_Slice order w = Returned (tt, w')
    ∧ response w w' = page_header +:+ page_rows (expirations w) domains page_footer
    ∧ domains ≡ₚ (map_to_list (expirations w)).*1
    ∧ StronglySorted (ordered (expirations w)) domains
    ∧ length domains = size (expirations w)
    ∧ (expirations w = ∅ → response w w' = page_header +:+ page_footer).
Proof.
  intros Hrange. exists (sort_Slice (less (expirations w)) order). eexists.
  split; [apply HandleStatus_returns|].
  unfold response. simpl. rewrite drop_app_length, written_status_events.
  split_and!; [done| | | |].
  - by rewrite (sorted_perm _ sort_Slice_ok).
  - by apply sorted_StronglySorted.
  - rewrite (sorted_perm _ sort_Slice_ok). by apply range_order_length.
  - intros Hempty.
    assert (sort_Slice (less (expirations w)) order = []) as ->; [|done].
    apply Permutation_nil. rewrite (sorted_perm _ sort_Slice_ok).
    unfold range_order in Hrange. rewrite Hrange, Hempty.
    by rewrite map_to_list_empty.
Qed.

(** X9. The first row of the page is that of a certificate that expires
    soonest: no key of the table has an entry before the entry of the
    first domain of the page; and a table with a key has a first row. *)
Theorem first_row_expires_soonest w order :
  range_order (expirations w) order →
  ∃ domains w',
    HandleStatus sort_Slice order w = Returned (tt, w')
    ∧ events w' = (events w ++ status_events (expirations w) domains)%list
    ∧ (expirations w ≠ ∅ → is_Some (head domains))
    ∧ ∀ first d, head domains = Some first → is_Some (expirations w !! d) →
        Before (expirations w !!! d) (expirations w !!! first) = false.
Proof.
  intros Hrange. exists (sort_Slice (less (expirations w)) order). eexists.
  split; [apply HandleStatus_returns|]. split; [done|].
  pose proof (sorted_StronglySorted _ sort_Slice_ok _ _ Hrange) as Hs.
  pose proof (sorted_perm _ sort_Slice_ok (expirations w) order) as Hperm.
  split.
  - intros Hne. destruct (sort_Slice (less (expirations w)) order) as [|d l]; [|by eexists].
    apply Permutation_nil in Hperm. subst order.
    unfold range_order in Hrange.
    apply Permutation_nil, fmap_nil_inv, map_to_list_empty_iff in Hrange. done.
  - intros first d Hhead Hd.
    apply (range_order_elem _ _ _ Hrange) in Hd. rewrite <- Hperm in Hd.
    destruct (sort_Slice (less (expirations w)) order) as [|d0 l]; [done|].
    injection Hhead as ->. apply StronglySorted_cons in Hs as [Hall _].
    apply elem_of_cons in Hd as [->|Hd]; [apply Before_irrefl|].
    rewrite Forall_forall in Hall.
    destruct (Hall d Hd) as [Hb|[-> _]]; [by apply Before_asym|apply Before_irrefl].
Qed.

(** X10. The page shows what the monitor last stored: after a pass of the
    monitor of a domain in which the prober returned a time, with or
    without an error, the next run of the handler writes the row of that
    domain with that time. *)
Theorem page_shows_last_probe net dom w exp err order :
  FindExpirationTime net dom = Returned (exp, err) →
  range_order (<[dom := exp]> (expirations w)) order →
  ∃ w1 w2,
    monitor_cycle net dom w = Returned (tt, w1)
    ∧ HandleStatus sort_Slice order w1 = Returned (tt, w2)
    ∧ EvFprintf (page_row dom exp) ∈ drop (length (events w1)) (events w2).
Proof.
  intros Hprobe Hrange. eexists _, _.
  split; [by apply monitor_cycle_returns with (err := err)|].
  split; [apply HandleStatus_returns|].
  cbn [events expirations]. rewrite drop_app_length. unfold status_events.
  do 2 apply list_elem_of_further. apply elem_of_app. left.
  apply list_elem_of_fmap. exists dom. split.
  - by rewrite lookup_total_insert_eq.
  - rewrite (sorted_perm _ sort_Slice_ok).
    apply (range_order_elem _ _ _ Hrange). rewrite lookup_insert_eq. by eexists.
Qed.

End page_and_table.

Lemma response_body_witness :
  (∃ domains w',
     HandleStatus insertionSort example_order example_world = Returned (tt, w')
     ∧ response example_world w'
       = page_header +:+ page_rows example_exps domains page_footer
     ∧ domains ≡ₚ (map_to_list example_exps).*1
     ∧ StronglySorted (ordered example_exps) domains
     ∧ length domains = size example_exps
     ∧ (example_exps = ∅ → response example_world w' = page_header +:+ page_footer))
  ∧ ∃ domains w',
      HandleStatus insertionSort [] (mkWorld ∅ ∅ []) = Returned (tt, w')
      ∧ response (mkWorld ∅ ∅ []) w' = page_header +:+ page_rows ∅ domains page_footer
      ∧ domains ≡ₚ (map_to_list (∅ : gmap string Time)).*1
      ∧ StronglySorted (ordered ∅) domains
      ∧ length domains = size (∅ : gmap string Time)
      ∧ ((∅ : gmap string Time) = ∅ →
         response (mkWorld ∅ ∅ []) w' = page_header +:+ page_footer).
Proof.
  split.
  - apply (response_body insertionSort insertionSort_contract example_world example_order).
    by_evaluation.
  - apply (response_body insertionSort insertionSort_contract (mkWorld ∅ ∅ []) []).
    by_evaluation.
Defined.

Lemma first_row_expires_soonest_witness :
  ∃ domains w',
    HandleStatus insertionSort example_order example_world = Returned (tt, w')
    ∧ events w' = (events example_world ++ status_events example_exps domains)%list
    ∧ (example_exps ≠ ∅ → is_Some (head domains))
    ∧ ∀ first d, head domains = Some first → is_Some (example_exps !! d) →
        Before (example_exps !!! d) (example_exps !!! first) = false.
Proof.
  apply (first_row_expires_soonest insertionSort insertionSort_contract
           example_world example_order).
  by_evaluation.
Defined.

Lemma page_shows_last_probe_witness :
  ∃ w1 w2,
    monitor_cycle (net_chain chain_2030_2025) "a.example" (initial distinct_domains)
      = Returned (tt, w1)
    ∧ HandleStatus insertionSort distinct_domains w1 = Returned (tt, w2)
    ∧ EvFprintf (page_row "a.example" t2025) ∈ drop (length (events w1)) (events w2).
Proof.
  apply (page_shows_last_probe insertionSort insertionSort_contract
           (net_chain chain_2030_2025) "a.example" (initial distinct_domains)
           t2025 None distinct_domains).
  - reflexivity.
  - by_evaluation.
Defined.

(** ** Configuration *)

(** X11. The table [NewCertMon] builds holds the zero time for exactly
    the set of configured domains: a domain named several times gets one
    entry, while one goroutine is started per element of the list. *)
Theorem NewCertMon_table domains :
  (NewCertMon domains).1 = gset_to_gmap zero (list_to_set domains)
  ∧ size (NewCertMon domains).1 = length (remove_dups domains)
  ∧ length (NewCertMon domains).2 = length domains.
Proof.
  assert ((NewCertMon domains).1 = gset_to_gmap zero (list_to_set domains)) as Htable.
  { apply map_eq. intros d. rewrite NewCertMon_lookup, lookup_gset_to_gmap.
    case_decide as Hd.
    - rewrite option_guard_True; [done|]. by apply elem_of_list_to_set.
    - rewrite option_guard_False; [done|]. by rewrite elem_of_list_to_set. }
  split_and!; [done| |by rewrite NewCertMon_goroutines].
  rewrite <- size_dom, Htable, dom_gset_to_gmap.
  rewrite <- (size_list_to_set (C := gset string) (remove_dups domains))
    by apply NoDup_remove_dups.
  f_equal. apply set_eq. intros d.
  by rewrite !elem_of_list_to_set, elem_of_remove_dups.
Qed.

Lemma append_cons c s t : String c s +:+ t = String c (s +:+ t).
Proof. reflexivity. Qed.

Lemma Split_nonempty s sep : strings_Split s sep ≠ [].
Proof.
  destruct s as [|c s]; simpl; [done|].
  destruct (Ascii.eqb c sep); [done|]. by destruct (strings_Split s sep).
Qed.

Lemma Split_length s sep : length (strings_Split s sep) = S (count_byte sep s).
Proof.
  induction s as [|c s IH]; simpl; [done|].
  destruct (Ascii.eqb c sep); simpl; [by rewrite IH|].
  pose proof (Split_nonempty s sep).
  destruct (strings_Split s sep); [done|]. by rewrite <- IH.
Qed.

Lemma Join_Split s sep : strings_Join (strings_Split s sep) sep = s.
Proof.
  induction s as [|c s IH]; [done|].
  pose proof (Split_nonempty s sep) as Hne. cbn [strings_Split].
  destruct (Ascii.eqb c sep) eqn:Hc.
  - apply Ascii.eqb_eq in Hc as ->.
    destruct (strings_Split s sep) as [|f fs]; [done|].
    cbn [strings_Join] in *. by rewrite IH.
  - destruct (strings_Split s sep) as [|f fs]; [done|].
    cbn [strings_Join] in *. destruct fs as [|f' fs].
    + by rewrite IH.
    + by rewrite append_cons, IH.
Qed.

Lemma Split_fields s sep :
  Forall (λ field, count_byte sep field = 0%nat) (strings_Split s sep).
Proof.
  induction s as [|c s IH]; simpl; [by repeat constructor|].
  destruct (Ascii.eqb c sep) eqn:Hc; [by constructor|].
  destruct (strings_Split s sep) as [|f fs]; simpl.
  - repeat constructor. simpl. by rewrite Hc.
  - inv IH. constructor; [|done]. simpl. by rewrite Hc.
Qed.

(** X12. [main] starts one monitor per comma-separated field of the
    value of [-hosts], empty fields included: their number is the number
    of commas plus one and so never zero, no field holds a comma, joining
    the fields with commas gives the value of the flag back, and the keys
    of the table are the fields. *)
Theorem main_monitors portFlag domainsFlag Getenv :
  let server := main portFlag domainsFlag Getenv in
  server_goroutines server = strings_Split domainsFlag ","
  ∧ length (server_goroutines server) = S (count_byte "," domainsFlag)
  ∧ Forall (λ field, count_byte "," field = 0%nat) (server_goroutines server)
  ∧ strings_Join (server_goroutines server) "," = domainsFlag
  ∧ dom (expirations (server_world server))
    =@{gset string} list_to_set (server_goroutines server).
Proof.
  simpl. rewrite NewCertMon_goroutines. split_and!.
  - done.
  - apply Split_length.
  - apply Split_fields.
  - apply Join_Split.
  - apply NewCertMon_dom.
Qed.

(** ** The port *)

Lemma uint_val_ge d : ∀ n, 0 ≤ n → n ≤ uint_val d n.
Proof.
  induction d as [|d IH|d IH|d IH|d IH|d IH|d IH|d IH|d IH|d IH|d IH];
    intros n Hn; simpl; [lia|..];
    match goal with |- _ ≤ uint_val _ ?m => specialize (IH m) end; lia.
Qed.

Lemma ParseUint_from_digits d : ∀ n,
  0 ≤ n → uint_val d n ≤ maxUint64 →
  ParseUint_from (NilEmpty.string_of_uint d) n = Value (uint_val d n).
Proof.
  induction d as [|d IH|d IH|d IH|d IH|d IH|d IH|d IH|d IH|d IH|d IH];
    intros n Hn Hmax; [done|..];
    cbn [NilEmpty.string_of_uint ParseUint_from uint_val] in *;
    match goal with
    | H : uint_val d ?m ≤ _ |- _ =>
        pose proof (uint_val_ge d m ltac:(lia)) as Hge;
        specialize (IH m ltac:(lia) H)
    end;
    change (maxUint64 / 10 + 1) with 1844674407370955162 in *;
    change maxUint64 with 18446744073709551615 in *;
    change (digit_of _) with (Some 0) || change (digit_of _) with (Some 1)
    || change (digit_of _) with (Some 2) || change (digit_of _) with (Some 3)
    || change (digit_of _) with (Some 4) || change (digit_of _) with (Some 5)
    || change (digit_of _) with (Some 6) || change (digit_of _) with (Some 7)
    || change (digit_of _) with (Some 8) || change (digit_of _) with (Some 9);
    cbv beta iota;
    rewrite (proj2 (Z.leb_gt _ _)) by lia;
    rewrite (proj2 (Z.ltb_ge _ _)) by lia;
    exact IH.
Qed.

Lemma of_uint_acc_val d : ∀ acc,
  Z.pos (Pos.of_uint_acc d acc) = uint_val d (Z.pos acc).
Proof.
  induction d as [|d IH|d IH|d IH|d IH|d IH|d IH|d IH|d IH|d IH|d IH];
    intros acc; cbn [Pos.of_uint_acc uint_val]; [done|..];
    rewrite IH; f_equal; lia.
Qed.

Lemma of_uint_val d : Z.of_N (Pos.of_uint d) = uint_val d 0.
Proof.
  induction d as [|d IH|d IH|d IH|d IH|d IH|d IH|d IH|d IH|d IH|d IH];
    cbn [Pos.of_uint uint_val]; [done|exact IH|..];
    cbn [Z.of_N]; rewrite of_uint_acc_val; f_equal.
Qed.

Lemma digits_not_signed d :
  d ≠ Decimal.Nil →
  ∃ c s, NilEmpty.string_of_uint d = String c s
         ∧ Ascii.eqb c "-" = false ∧ Ascii.eqb c "+" = false.
Proof.
  destruct d; [done|..]; intros _; by eexists _, _.
Qed.

Lemma Atoi_pos p :
  Z.pos p < 2 ^ 63 → Atoi (Itoa (Z.pos p)) = (Z.pos p, None).
Proof.
  intros Hp. unfold Itoa. cbn [Z.to_int NilZero.string_of_int].
  pose proof (DecimalPos.Unsigned.to_uint_nonnil p) as Hnil.
  pose proof (DecimalPos.Unsigned.of_to p) as Hof.
  apply (f_equal Z.of_N) in Hof. rewrite of_uint_val in Hof. cbn [Z.of_N] in Hof.
  assert (NilZero.string_of_uint (Pos.to_uint p) = NilEmpty.string_of_uint (Pos.to_uint p))
    as -> by (by destruct (Pos.to_uint p)).
  pose proof (ParseUint_from_digits (Pos.to_uint p) 0 ltac:(lia)) as Hparse.
  rewrite Hof in Hparse. specialize (Hparse ltac:(unfold maxUint64; lia)).
  destruct (digits_not_signed _ Hnil) as (c & s & Hs & Hminus & Hplus).
  rewrite Hs in *. unfold Atoi, ParseUint. rewrite Hminus, Hplus. cbn [orb negb andb].
  rewrite Hparse. rewrite (proj2 (Z.leb_gt _ _)) by lia. done.
Qed.

Lemma Atoi_neg p :
  - 2 ^ 63 ≤ Z.neg p → Atoi (Itoa (Z.neg p)) = (Z.neg p, None).
Proof.
  intros Hp. unfold Itoa. cbn [Z.to_int NilZero.string_of_int].
  pose proof (DecimalPos.Unsigned.to_uint_nonnil p) as Hnil.
  pose proof (DecimalPos.Unsigned.of_to p) as Hof.
  apply (f_equal Z.of_N) in Hof. rewrite of_uint_val in Hof. cbn [Z.of_N] in Hof.
  assert (NilZero.string_of_uint (Pos.to_uint p) = NilEmpty.string_of_uint (Pos.to_uint p))
    as -> by (by destruct (Pos.to_uint p)).
  pose proof (ParseUint_from_digits (Pos.to_uint p) 0 ltac:(lia)) as Hparse.
  rewrite Hof in Hparse. specialize (Hparse ltac:(unfold maxUint64; lia)).
  destruct (digits_not_signed _ Hnil) as (c & s & Hs & _ & _).
  rewrite Hs in *. unfold Atoi, ParseUint.
  change (Ascii.eqb "-" "-") with true. cbn [orb negb andb].
  rewrite Hparse. rewrite (proj2 (Z.ltb_ge _ _)) by lia. done.
Qed.

Lemma Atoi_Itoa i : - 2 ^ 63 ≤ i < 2 ^ 63 → Atoi (Itoa i) = (i, None).
Proof.
  intros [Hlo Hhi]. destruct i as [|p|p].
  - reflexivity.
  - by apply Atoi_pos.
  - by apply Atoi_neg.
Qed.

(** X13. The address the server listens on.  A port given with [-port]
    and different from 0 is used whatever the environment holds.  Without
    it, the port is read from the variable PORT: when PORT holds the
    decimal form of an int, the address is a colon followed by that same
    text; when PORT is unset or empty, the address is ":0". *)
Theorem main_listen_address domainsFlag Getenv :
  (∀ portFlag, portFlag ≠ 0 →
     server_addr (main portFlag domainsFlag Getenv) = ":" +:+ Itoa portFlag)
  ∧ (∀ port, - 2 ^ 63 ≤ port < 2 ^ 63 → Getenv "PORT" = Itoa port →
       server_addr (main 0 domainsFlag Getenv) = ":" +:+ Getenv "PORT")
  ∧ (Getenv "PORT" = "" → server_addr (main 0 domainsFlag Getenv) = ":0").
Proof.
  unfold main. cbn [server_addr]. split_and!.
  - intros portFlag Hne. by rewrite (proj2 (Z.eqb_neq _ _) Hne).
  - intros port Hrange Henv. rewrite Henv, Atoi_Itoa by done. done.
  - intros ->. reflexivity.
Qed.

Lemma main_listen_address_witness :
  server_addr (main 8080 default_hosts (env_PORT "9090")) = ":" +:+ Itoa 8080
  ∧ server_addr (main 0 default_hosts (env_PORT "9090")) = ":" +:+ "9090"
  ∧ server_addr (main 0 default_hosts (env_PORT "")) = ":0".
Proof.
  split_and!.
  - apply (proj1 (main_listen_address default_hosts (env_PORT "9090"))). lia.
  - apply (proj1 (proj2 (main_listen_address default_hosts (env_PORT "9090"))) 9090);
      [lia|reflexivity].
  - apply (proj2 (proj2 (main_listen_address default_hosts (env_PORT "")))).
    reflexivity.
Defined.

(** ** The gauge *)

(** X14. The gauge has a value for configured domains only: in every
    state the running system reaches, every label of the gauge that has
    a value is a configured domain and a key of the table. *)
Theorem reachable_gauge_labels domains w :
  reachable domains w →
  dom (certExpirations w) ⊆@{gset string} list_to_set domains
  ∧ ∀ d, is_Some (certExpirations w !! d) → is_Some (expirations w !! d).
Proof.
  intros Hreach.
  assert (dom (certExpirations w) ⊆@{gset string} list_to_set domains) as Hsub.
  { revert w Hreach. unfold reachable. rewrite NewCertMon_goroutines.
    apply rtc_ind_r.
    - simpl. rewrite dom_empty_L. set_solver.
    - intros w1 w2 _ Hstep IH.
      destruct Hstep as [i dom net w1 w2 Hi Hrun|srt order w1 w2 Hrange Hrun].
      + apply monitor_cycle_inversion in Hrun as (exp & err & _ & _ & -> & _).
        rewrite dom_insert_L. apply list_elem_of_lookup_2 in Hi. set_solver.
      + rewrite HandleStatus_returns in Hrun. by injection Hrun as <-. }
  split; [done|].
  intros d Hd. apply elem_of_dom. rewrite (reachable_keys _ _ Hreach).
  apply Hsub. by apply elem_of_dom.
Qed.

Lemma reachable_gauge_labels_witness :
  dom (certExpirations after_one_pass) ⊆@{gset string} list_to_set distinct_domains
  ∧ ∀ d, is_Some (certExpirations after_one_pass !! d) →
         is_Some (expirations after_one_pass !! d).
Proof.
  apply (reachable_gauge_labels distinct_domains after_one_pass).
  apply after_one_pass_reachable.
Defined.
